(** * ytt: transcript discovery pipeline (api.go)

    Shallow embedding of the Go package [ytt] (file [api.go]): the video-ID
    resolver [ExtractVideoID], the caption-list extractor
    [extractCaptionsJSON], the catalog builder [buildTranscriptList], the
    track selector [FindTranscript], the transcript decoder
    [parseTranscript] and the tag stripper [removeHTMLTags].

    Go strings are byte strings; they are modelled as Rocq [string]s, whose
    characters are 8-bit [ascii] values, so [String.length] is Go's [len]. *)

From Stdlib Require Import Ascii String QArith.
From stdpp Require Import base gmap strings list.

Set Warnings "-register-all,-abstract-large-number".

Open Scope string_scope.
Open Scope list_scope.

(* ------------------------------------------------------------------ *)
(** ** Go errors *)

(** Errors of [encoding/json] (syntax error or type mismatch when
    decoding into a map). *)
Inductive json_error :=
| JSONSyntaxError
| JSONUnmarshalTypeError.

(** Errors of [encoding/xml]: a [*SyntaxError] (unexpected end of input
    included), [io.EOF] for a document without any element, the error
    for an unsupported [<?xml?>] version or encoding, and the
    [*strconv.NumError] of [strconv.ParseFloat] surfaced through it. *)
Inductive xml_error :=
| XMLSyntaxError
| XMLEOF
| XMLDeclError
| XMLParseFloatError.

Inductive goerror :=
| ErrInvalidCharactersInVideoID
| ErrVideoIDMinLength
| ErrTranscriptsDisabled
| ErrTranscriptsUnavailable
| ErrNoTranscriptFound
| ErrInvalidFormat
| ErrJSON (e : json_error)
| ErrXML (e : xml_error).

(** A Go [(T, error)] pair with exactly one meaningful component. *)
Inductive result (A : Type) :=
| Ok (a : A)
| Err (e : goerror).
Arguments Ok {A} a.
Arguments Err {A} e.

(* ------------------------------------------------------------------ *)
(** ** The [strings] package, on byte strings *)

Module GoStrings.

(** [strings.HasPrefix s p] *)
Fixpoint HasPrefix (s p : string) : bool :=
  match p, s with
  | EmptyString, _ => true
  | String c p', String d s' => Ascii.eqb c d && HasPrefix s' p'
  | String _ _, EmptyString => false
  end.

(** [strings.Index s sep]: byte offset of the first occurrence, [None]
    for Go's [-1]. *)
Fixpoint Index (s sep : string) : option nat :=
  if HasPrefix s sep then Some 0
  else match s with
       | EmptyString => None
       | String _ s' => option_map S (Index s' sep)
       end.

(** [strings.Contains s sub] *)
Definition Contains (s sub : string) : bool :=
  match Index s sub with Some _ => true | None => false end.

Fixpoint elem_byte (c : ascii) (chars : string) : bool :=
  match chars with
  | EmptyString => false
  | String d chars' => Ascii.eqb c d || elem_byte c chars'
  end.

(** [strings.ContainsAny s chars] for an ASCII [chars]: an ASCII byte of
    [s] is always decoded as a rune of its own, and no other rune of [s]
    (multi-byte or [utf8.RuneError]) is in an ASCII set, so the rune-wise
    test is the byte-wise one. *)
Fixpoint ContainsAny (s chars : string) : bool :=
  match s with
  | EmptyString => false
  | String c s' => elem_byte c chars || ContainsAny s' chars
  end.

(** [s[:n]] and [s[n:]] *)
Fixpoint take (n : nat) (s : string) : string :=
  match n, s with
  | 0, _ => EmptyString
  | S n', String c s' => String c (take n' s')
  | S _, EmptyString => EmptyString
  end.

Fixpoint drop (n : nat) (s : string) : string :=
  match n, s with
  | 0, _ => s
  | S n', String _ s' => drop n' s'
  | S _, EmptyString => EmptyString
  end.

(** [strings.Split s sep] for a non-empty [sep] ([genSplit] with
    [n = Count(s, sep) + 1]: the bound never stops the loop early, since
    [Count] scans the same occurrences).  Each round consumes at least
    [len(sep) >= 1] bytes, so [length s + 1] rounds suffice. *)
Fixpoint split_go (fuel : nat) (s sep : string) : list string :=
  match fuel with
  | 0 => [s]
  | S f =>
      match Index s sep with
      | None => [s]
      | Some i => take i s :: split_go f (drop (i + String.length sep) s) sep
      end
  end.

Definition Split (s sep : string) : list string :=
  split_go (S (String.length s)) s sep.

(** [strings.ReplaceAll(s, "\n", "")]: with a one-byte [old] and an empty
    [new], every occurrence of that byte is deleted. *)
Fixpoint delete_byte (b : ascii) (s : string) : string :=
  match s with
  | EmptyString => EmptyString
  | String c s' => if Ascii.eqb c b then delete_byte b s' else String c (delete_byte b s')
  end.

End GoStrings.
Import GoStrings.

Definition dquote : ascii := ascii_of_nat 34.
Definition newline : ascii := ascii_of_nat 10.

(* ------------------------------------------------------------------ *)
(** ** UTF-8 decoding as done by [regexp] ([utf8.DecodeRuneInString])

    [rune_width s] is the byte width of the first rune of [s]: an invalid
    or truncated sequence is [utf8.RuneError] of width 1. *)

Definition byte_in (lo hi : nat) (s : string) : bool :=
  match s with
  | String b _ => (Nat.leb lo (nat_of_ascii b)) && (Nat.leb (nat_of_ascii b) hi)
  | EmptyString => false
  end.

Definition rune_width (s : string) : nat :=
  match s with
  | EmptyString => 0
  | String b0 r =>
      let n0 := nat_of_ascii b0 in
      let r1 := drop 1 r in
      let r2 := drop 2 r in
      if Nat.ltb n0 128 then 1
      else if (Nat.leb 194 n0) && (Nat.leb n0 223) then
        (if byte_in 128 191 r then 2 else 1)
      else if Nat.eqb n0 224 then
        (if byte_in 160 191 r && byte_in 128 191 r1 then 3 else 1)
      else if ((Nat.leb 225 n0) && (Nat.leb n0 236)) || (Nat.leb 238 n0) && (Nat.leb n0 239) then
        (if byte_in 128 191 r && byte_in 128 191 r1 then 3 else 1)
      else if Nat.eqb n0 237 then
        (if byte_in 128 159 r && byte_in 128 191 r1 then 3 else 1)
      else if Nat.eqb n0 240 then
        (if byte_in 144 191 r && byte_in 128 191 r1 && byte_in 128 191 r2 then 4 else 1)
      else if (Nat.leb 241 n0) && (Nat.leb n0 243) then
        (if byte_in 128 191 r && byte_in 128 191 r1 && byte_in 128 191 r2 then 4 else 1)
      else if Nat.eqb n0 244 then
        (if byte_in 128 143 r && byte_in 128 191 r1 && byte_in 128 191 r2 then 4 else 1)
      else 1
  end.

(** The runes of [s], each kept as its bytes, decoded from the start. *)
Fixpoint runes_go (fuel : nat) (s : string) : list string :=
  match fuel with
  | 0 => []
  | S f =>
      match s with
      | EmptyString => []
      | _ => let w := rune_width s in take w s :: runes_go f (drop w s)
      end
  end.

Definition runes (s : string) : list string := runes_go (String.length s) s.

(* ------------------------------------------------------------------ *)
(** ** The video-ID patterns ([videoRegexpList])

    Go's [regexp] is leftmost-first: [FindStringSubmatch] returns the match
    starting at the leftmost rune position where the pattern matches, and at
    that position the first alternative (in backtracking order) that lets
    the whole pattern match.  A matcher below is tried at one rune position
    and returns the bytes of capture group 1. *)

Module VideoRegexp.

(** [[^\x22&?/=%]] ([\x22] is the double quote): any rune except these
    six ASCII characters. *)
Definition id_class (r : string) : bool :=
  negb (existsb (String.eqb r) [String dquote EmptyString; "&"; "?"; "/"; "="; "%"]).

(** [([^\x22&?/=%]{11})] *)
Fixpoint id_token (n : nat) (rs : list string) : option string :=
  match n with
  | 0 => Some EmptyString
  | S n' =>
      match rs with
      | r :: rs' =>
          if id_class r then
            match id_token n' rs' with
            | Some t => Some (String.append r t)
            | None => None
            end
          else None
      | [] => None
      end
  end.

(** A literal ASCII word, one rune per byte. *)
Fixpoint literal (w : string) (rs : list string) : option (list string) :=
  match w with
  | EmptyString => Some rs
  | String c w' =>
      match rs with
      | r :: rs' => if String.eqb r (String c EmptyString) then literal w' rs' else None
      | [] => None
      end
  end.

(** Try alternatives in order, continuing each with [k]. *)
Fixpoint alternatives (ws : list string) (k : list string -> option string)
    (rs : list string) : option string :=
  match ws with
  | [] => None
  | w :: ws' =>
      match literal w rs with
      | Some rs' =>
          match k rs' with
          | Some m => Some m
          | None => alternatives ws' k rs
          end
      | None => alternatives ws' k rs
      end
  end.

(** [(?:=|/)([^\x22&?/=%]{11})] at one position *)
Definition sep_then_id (rs : list string) : option string :=
  alternatives ["="; "/"] (id_token 11) rs.

(** [(?:v|embed|shorts|watch\?v)(?:=|/)([^\x22&?/=%]{11})] *)
Definition re_marker (rs : list string) : option string :=
  alternatives ["v"; "embed"; "shorts"; "watch?v"] sep_then_id rs.

(** [(?:=|/)([^\x22&?/=%]{11})] *)
Definition re_sep (rs : list string) : option string := sep_then_id rs.

(** [([^\x22&?/=%]{11})] *)
Definition re_any (rs : list string) : option string := id_token 11 rs.

(** Unanchored search: the leftmost rune position where [m] matches. *)
Fixpoint find_leftmost (m : list string -> option string) (rs : list string)
    : option string :=
  match m rs with
  | Some t => Some t
  | None => match rs with [] => None | _ :: rs' => find_leftmost m rs' end
  end.

End VideoRegexp.

Definition videoRegexpList : list (list string -> option string) :=
  [VideoRegexp.re_marker; VideoRegexp.re_sep; VideoRegexp.re_any].

(** The [for _, re := range videoRegexpList] loop: first pattern with a
    match wins, [matches[1]] is its capture. *)
Fixpoint first_submatch (res : list (list string -> option string)) (s : string)
    : option string :=
  match res with
  | [] => None
  | re :: res' =>
      match VideoRegexp.find_leftmost re (runes s) with
      | Some m => Some m
      | None => first_submatch res' s
      end
  end.

(** The candidate after the extraction step (lines 31-38). *)
Definition extract_candidate (videoID : string) : string :=
  if Contains videoID "youtu" || ContainsAny videoID (String dquote "?&/<%=") then
    match first_submatch videoRegexpList videoID with
    | Some m => m
    | None => videoID
    end
  else videoID.

Definition ExtractVideoID (videoID0 : string) : result string :=
  let videoID := extract_candidate videoID0 in
  if ContainsAny videoID "?&/<%=" then Err ErrInvalidCharactersInVideoID
  else if Nat.ltb (String.length videoID) 10 then Err ErrVideoIDMinLength
  else Ok videoID.

(* ------------------------------------------------------------------ *)
(** ** Propositional views of the string primitives *)

(** [c] occurs in [s]. *)
Definition has_char (s : string) (c : ascii) : Prop :=
  exists i, String.get i s = Some c.

(** [p] occurs in [s] as a substring. *)
Definition occurs (p s : string) : Prop :=
  exists pre post, s = String.append pre (String.append p post).

(** The reserved set of the validation step, [{?, &, /, <, %, =}]. *)
Definition reserved_chars : string := "?&/<%=".

Definition has_reserved (s : string) : Prop :=
  exists c, has_char s c /\ has_char reserved_chars c.

(* ------------------------------------------------------------------ *)
(** ** Decoded JSON ([interface{}] values produced by [encoding/json])

    [JNull] is Go's [nil], numbers are kept as their literal, an object is
    a [map[string]interface{}] given by its bindings (one per key). *)

Inductive json :=
| JNull
| JBool (b : bool)
| JNumber (lit : string)
| JString (s : string)
| JArray (vs : list json)
| JObject (kvs : list (string * json)).

(** [m[k]]: the bound value, [None] standing for the [nil] that a missing
    key (or a [nil] map) yields. *)
Fixpoint map_index (k : string) (m : list (string * json)) : option json :=
  match m with
  | [] => None
  | (k', v) :: m' => if String.eqb k k' then Some v else map_index k m'
  end.

(** [v.(map[string]interface{})], [v.(string)], [v.([]interface{})] *)
Definition as_map (v : option json) : option (list (string * json)) :=
  match v with Some (JObject kvs) => Some kvs | _ => None end.

Definition as_string (v : option json) : option string :=
  match v with Some (JString s) => Some s | _ => None end.

Definition as_slice (v : option json) : option (list json) :=
  match v with Some (JArray vs) => Some vs | _ => None end.

(** [x, _ := v.(T)]: the zero value on a failed assertion ([nil] map, or
    the empty string). *)
Definition map_or_nil (o : option (list (string * json))) : list (string * json) :=
  match o with Some m => m | None => [] end.

Definition string_or_empty (o : option string) : string :=
  match o with Some s => s | None => "" end.

(* ------------------------------------------------------------------ *)
(** ** Transcripts and the catalog *)

Record Transcript := mkTranscript {
  VideoID : string;
  URL : string;
  Language : string;
  LanguageCode : string;
  IsGenerated : bool
}.

(** [TranscriptList]; its [VideoID] field is named [ListVideoID] here, as
    Rocq record fields share one name space. *)
Record TranscriptList := mkTranscriptList {
  ListVideoID : string;
  ManuallyCreatedTranscripts : gmap string Transcript;
  GeneratedTranscripts : gmap string Transcript
}.

(** Body of the loop of [buildTranscriptList] (lines 141-154): the fields
    read from one entry of [captionTracks]: language code, kind and the
    descriptor. *)
Definition read_track (videoID : string) (captionTrack : json)
    : string * string * Transcript :=
  let track := map_or_nil (as_map (Some captionTrack)) in
  let languageCode := string_or_empty (as_string (map_index "languageCode" track)) in
  let baseURL := string_or_empty (as_string (map_index "baseUrl" track)) in
  let name := map_or_nil (as_map (map_index "name" track)) in
  let simpleText := string_or_empty (as_string (map_index "simpleText" name)) in
  let kind := string_or_empty (as_string (map_index "kind" track)) in
  (languageCode, kind,
   {| VideoID := videoID; URL := baseURL; Language := simpleText;
      LanguageCode := languageCode; IsGenerated := String.eqb kind "asr" |}).

(** The [for _, captionTrack := range captionTracks] loop (lines 140-161),
    threading the two maps. *)
Fixpoint fill_maps (videoID : string) (captionTracks : list json)
    (manual generated : gmap string Transcript)
    : gmap string Transcript * gmap string Transcript :=
  match captionTracks with
  | [] => (manual, generated)
  | captionTrack :: rest =>
      let '(languageCode, kind, transcript) := read_track videoID captionTrack in
      if String.eqb kind "asr" then
        fill_maps videoID rest manual (<[languageCode := transcript]> generated)
      else
        fill_maps videoID rest (<[languageCode := transcript]> manual) generated
  end.

Definition buildTranscriptList (videoID : string)
    (captionsJSON : list (string * json)) : result TranscriptList :=
  match as_slice (map_index "captionTracks" captionsJSON) with
  | None => Err ErrInvalidFormat
  | Some captionTracks =>
      let '(manualTranscripts, generatedTranscripts) :=
        fill_maps videoID captionTracks ∅ ∅ in
      Ok {| ListVideoID := videoID;
            ManuallyCreatedTranscripts := manualTranscripts;
            GeneratedTranscripts := generatedTranscripts |}
  end.

(** [FindTranscript], a method of [TranscriptList] (lines 209-219). *)
Fixpoint FindTranscript (tl : TranscriptList) (languageCodes : list string)
    : result Transcript :=
  match languageCodes with
  | [] => Err ErrNoTranscriptFound
  | code :: rest =>
      match ManuallyCreatedTranscripts tl !! code with
      | Some t => Ok t
      | None =>
          match GeneratedTranscripts tl !! code with
          | Some t => Ok t
          | None => FindTranscript tl rest
          end
      end
  end.

(** Views used in the statements: the language code, the class and the
    descriptor of one track entry, and the last entry of a class with a
    given code. *)
Definition track_code (videoID : string) (t : json) : string :=
  fst (fst (read_track videoID t)).

Definition track_is_asr (videoID : string) (t : json) : bool :=
  String.eqb (snd (fst (read_track videoID t))) "asr".

Definition track_descriptor (videoID : string) (t : json) : Transcript :=
  snd (read_track videoID t).

Definition last_track (videoID : string) (asr : bool) (k : string)
    (captionTracks : list json) : option json :=
  find (fun t => Bool.eqb (track_is_asr videoID t) asr && String.eqb (track_code videoID t) k)
    (rev captionTracks).

(** The mapping of one class: generated ([true]) or human-authored. *)
Definition class_map (asr : bool) (tl : TranscriptList) : gmap string Transcript :=
  if asr then GeneratedTranscripts tl else ManuallyCreatedTranscripts tl.

(** Scenario B: one generated English track. *)
Definition scenario_B_track : json :=
  JObject [("languageCode", JString "en"); ("kind", JString "asr");
           ("baseUrl", JString "..."); ("name", JObject [("simpleText", JString "English")])].

Definition scenario_B_captions : list (string * json) :=
  [("captionTracks", JArray [scenario_B_track])].

(** The entry of a class at a key in a build result. *)
Definition catalog_lookup (asr : bool) (k : string) (r : result TranscriptList)
    : option Transcript :=
  match r with Ok tl => class_map asr tl !! k | Err _ => None end.

(** Two human-authored tracks, and the second one with its language code
    corrupted into the first one's. *)
Definition track_en : json :=
  JObject [("languageCode", JString "en"); ("baseUrl", JString "https://a")].
Definition track_fr : json :=
  JObject [("languageCode", JString "fr"); ("baseUrl", JString "https://b")].
Definition track_fr_corrupted : json :=
  JObject [("languageCode", JString "en"); ("baseUrl", JString "https://b")].

(** The second track with its language code, name and kind missing. *)
Definition track_fr_nocode : json :=
  JObject [("baseUrl", JString "https://b")].

(* ------------------------------------------------------------------ *)
(** ** Tag stripping ([removeHTMLTags], regexp [<[^>]*>])

    A match of [<[^>]*>] at a position is a ['<'] followed by everything up
    to the first ['>'] (the greedy [[^>]*] stops there); there is none when
    no ['>'] follows.  [>] and [<] are ASCII, so runes and bytes agree. *)

(** After the ['<']: the input left after the first ['>']. *)
Fixpoint tag_end (s : string) : option string :=
  match s with
  | EmptyString => None
  | String c s' => if Ascii.eqb c ">"%char then Some s' else tag_end s'
  end.

Definition tag_at (s : string) : option string :=
  match s with
  | String c s' => if Ascii.eqb c "<"%char then tag_end s' else None
  | EmptyString => None
  end.

(** Leftmost match: the input before it and the input after it. *)
Fixpoint find_tag (s : string) : option (string * string) :=
  match tag_at s with
  | Some rest => Some (EmptyString, rest)
  | None =>
      match s with
      | EmptyString => None
      | String c s' =>
          match find_tag s' with
          | Some (pre, rest) => Some (String c pre, rest)
          | None => None
          end
      end
  end.

(** [re.ReplaceAllString(text, "")]: successive non-overlapping matches,
    each deleted, the search resuming after the match.  A match is at least
    two bytes long, so [length text + 1] rounds suffice. *)
Fixpoint replace_all_go (fuel : nat) (s : string) : string :=
  match fuel with
  | 0 => s
  | S f =>
      match find_tag s with
      | None => s
      | Some (pre, rest) => String.append pre (replace_all_go f rest)
      end
  end.

Definition removeHTMLTags (text : string) : string :=
  replace_all_go (S (String.length text)) text.

(* ------------------------------------------------------------------ *)
(** ** [json.Unmarshal] into a [map[string]interface{}]

    [Unmarshal] first checks the whole input against the JSON grammar (the
    scanner run by [checkValid]: RFC 8259 values, at most 10000 nested
    arrays and objects, nothing but white space after the value) and only
    then decodes it.  Decoding into [interface{}] makes objects maps (a
    repeated key keeps its last value), arrays slices, strings Go strings
    and numbers [float64]; a number out of the [float64] range is an
    [UnmarshalTypeError], recorded while decoding goes on. *)

Definition is_json_ws (c : ascii) : bool :=
  let n := nat_of_ascii c in
  Nat.eqb n 32 || Nat.eqb n 9 || Nat.eqb n 10 || Nat.eqb n 13.

Fixpoint skip_ws (s : string) : string :=
  match s with
  | String c s' => if is_json_ws c then skip_ws s' else s
  | EmptyString => EmptyString
  end.

Definition is_digit (c : ascii) : bool :=
  Nat.leb 48 (nat_of_ascii c) && Nat.leb (nat_of_ascii c) 57.

(** The longest run of decimal digits at the front, and what follows. *)
Fixpoint span_digits (s : string) : string * string :=
  match s with
  | String c s' =>
      if is_digit c then let '(ds, r) := span_digits s' in (String c ds, r)
      else (EmptyString, s)
  | EmptyString => (EmptyString, EmptyString)
  end.

Fixpoint digits_value_go (acc : Z) (ds : string) : Z :=
  match ds with
  | String c r => digits_value_go (acc * 10 + Z.of_nat (nat_of_ascii c - 48))%Z r
  | EmptyString => acc
  end.

Definition digits_value (ds : string) : Z := digits_value_go 0%Z ds.

(** [strconv.ParseFloat(lit, 64)] fails with [ErrRange] exactly when the
    magnitude [m * 10^e] rounds (to nearest, ties to even) to infinity,
    that is when it is at least [2^1024 - 2^970], halfway between the
    largest [float64] (odd mantissa) and [2^1024]. *)
Definition float64_overflows (m e : Z) : bool :=
  let t := (2 ^ 1024 - 2 ^ 970)%Z in
  if Z.leb 0 e then Z.leb t (m * 10 ^ e) else Z.leb (t * 10 ^ (- e)) m.

(** The fraction digits after an optional ['.'] (at least one digit when
    the dot is there). *)
Definition frac_part (s : string) : option (string * string) :=
  match s with
  | String c r =>
      if Ascii.eqb c "."%char then
        let '(ds, r') := span_digits r in
        if String.eqb ds EmptyString then None else Some (ds, r')
      else Some (EmptyString, s)
  | EmptyString => Some (EmptyString, EmptyString)
  end.

(** An optional exponent: its sign, its digits, its text and what
    follows. *)
Definition exp_part (s : string) : option (bool * string * string * string) :=
  match s with
  | String c r =>
      if Ascii.eqb c "e"%char || Ascii.eqb c "E"%char then
        let '(sg, r1) :=
          match r with
          | String d r' =>
              if Ascii.eqb d "+"%char then ("+", r')
              else if Ascii.eqb d "-"%char then ("-", r') else (EmptyString, r)
          | EmptyString => (EmptyString, r)
          end in
        let '(ds, r2) := span_digits r1 in
        if String.eqb ds EmptyString then None
        else Some (String.eqb sg "-", ds, String c (String.append sg ds), r2)
      else Some (false, EmptyString, EmptyString, s)
  | EmptyString => Some (false, EmptyString, EmptyString, EmptyString)
  end.

(** A number [-? (0 | [1-9][0-9]* ) (. [0-9]+)? ([eE] [+-]? [0-9]+)?]: its
    text, its value as [m * 10^e], and what follows. *)
Definition parse_number (s : string) : option (string * Z * Z * string) :=
  let '(sign, s1) :=
    match s with
    | String c r => if Ascii.eqb c "-"%char then ("-", r) else (EmptyString, s)
    | EmptyString => (EmptyString, s)
    end in
  let '(ip, s2) :=
    match s1 with
    | String c r =>
        if Ascii.eqb c "0"%char then ("0", r)
        else if is_digit c then let '(ds, r') := span_digits r in (String c ds, r')
        else (EmptyString, s1)
    | EmptyString => (EmptyString, s1)
    end in
  if String.eqb ip EmptyString then None else
  match frac_part s2 with
  | None => None
  | Some (fp, s3) =>
      match exp_part s3 with
      | None => None
      | Some (eneg, ed, etext, s4) =>
          let lit := String.append sign (String.append ip
                       (String.append (if String.eqb fp EmptyString then EmptyString
                                       else String "." fp) etext)) in
          let ev := digits_value ed in
          let e := ((if eneg then - ev else ev) - Z.of_nat (String.length fp))%Z in
          Some (lit, digits_value (String.append ip fp), e, s4)
      end
  end.

(** *** String literals, decoded as [unquote] does *)

Definition hex_val (c : ascii) : option N :=
  let n := N_of_ascii c in
  if N.leb 48 n && N.leb n 57 then Some (n - 48)%N
  else if N.leb 65 n && N.leb n 70 then Some (n - 55)%N
  else if N.leb 97 n && N.leb n 102 then Some (n - 87)%N
  else None.

(** [getu4]: four hex digits. *)
Definition hex4 (s : string) : option (N * string) :=
  match s with
  | String a (String b (String c (String d r))) =>
      match hex_val a, hex_val b, hex_val c, hex_val d with
      | Some x, Some y, Some z, Some w => Some ((((x * 16 + y) * 16 + z) * 16 + w)%N, r)
      | _, _, _, _ => None
      end
  | _ => None
  end.

(** [utf8.EncodeRune] for a code point that is not a surrogate and at
    most [0x10FFFF]. *)
Definition utf8_encode (cp : N) : string :=
  let byte n := ascii_of_N n in
  if N.ltb cp 128 then String (byte cp) EmptyString
  else if N.ltb cp 2048 then
    String (byte (192 + cp / 64)%N) (String (byte (128 + cp mod 64)%N) EmptyString)
  else if N.ltb cp 65536 then
    String (byte (224 + cp / 4096)%N) (String (byte (128 + (cp / 64) mod 64)%N)
      (String (byte (128 + cp mod 64)%N) EmptyString))
  else
    String (byte (240 + cp / 262144)%N) (String (byte (128 + (cp / 4096) mod 64)%N)
      (String (byte (128 + (cp / 64) mod 64)%N) (String (byte (128 + cp mod 64)%N) EmptyString))).

(** [unicode.ReplacementChar], U+FFFD. *)
Definition replacement_char : string := utf8_encode 65533%N.

Definition is_surrogate (u : N) : bool := N.leb 55296%N u && N.ltb u 57344%N.

(** [utf16.DecodeRune]: a high then a low surrogate. *)
Definition is_surrogate_pair (u1 u2 : N) : bool :=
  N.leb 55296%N u1 && N.ltb u1 56320%N && N.leb 56320%N u2 && N.ltb u2 57344%N.

Definition decode_pair (u1 u2 : N) : N := (65536 + (u1 - 55296) * 1024 + (u2 - 56320))%N.

(** The one-character escapes the scanner accepts. *)
Definition simple_escape (e : ascii) : option ascii :=
  match nat_of_ascii e with
  | 34 => Some e | 92 => Some e | 47 => Some e
  | 98 => Some (ascii_of_nat 8) | 102 => Some (ascii_of_nat 12)
  | 110 => Some (ascii_of_nat 10) | 114 => Some (ascii_of_nat 13)
  | 116 => Some (ascii_of_nat 9)
  | _ => None
  end.

Definition prepend (p : string) (o : option (string * string)) : option (string * string) :=
  match o with Some (d, r) => Some (String.append p d, r) | None => None end.

(** The body of a string literal after its opening quote: the decoded
    bytes and the input after the closing quote.  Control bytes are
    refused; an invalid UTF-8 byte and a [\u] escape of a surrogate that
    does not start a valid pair become U+FFFD.  Each round consumes at
    least one byte. *)
Fixpoint parse_str (fuel : nat) (s : string) : option (string * string) :=
  match fuel with
  | 0 => None
  | S f =>
      match s with
      | EmptyString => None
      | String c r =>
          let n := nat_of_ascii c in
          if Nat.eqb n 34 then Some (EmptyString, r)
          else if Nat.eqb n 92 then
            match r with
            | String e r1 =>
                if Ascii.eqb e "u"%char then
                  match hex4 r1 with
                  | None => None
                  | Some (u, r2) =>
                      if is_surrogate u then
                        match match r2 with
                              | String b1 (String b2 r3) =>
                                  if Nat.eqb (nat_of_ascii b1) 92 && Ascii.eqb b2 "u"%char
                                  then hex4 r3 else None
                              | _ => None
                              end with
                        | Some (u2, r4) =>
                            if is_surrogate_pair u u2
                            then prepend (utf8_encode (decode_pair u u2)) (parse_str f r4)
                            else prepend replacement_char (parse_str f r2)
                        | None => prepend replacement_char (parse_str f r2)
                        end
                      else prepend (utf8_encode u) (parse_str f r2)
                  end
                else match simple_escape e with
                     | Some d => prepend (String d EmptyString) (parse_str f r1)
                     | None => None
                     end
            | EmptyString => None
            end
          else if Nat.ltb n 32 then None
          else if Nat.ltb n 128 then prepend (String c EmptyString) (parse_str f r)
          else
            let w := rune_width s in
            if Nat.eqb w 1 then prepend replacement_char (parse_str f r)
            else prepend (take w s) (parse_str f (drop w s))
      end
  end.

(** *** Values *)

(** [m[k] = v] on a map given by its bindings. *)
Fixpoint obj_set (k : string) (v : json) (m : list (string * json)) : list (string * json) :=
  match m with
  | [] => [(k, v)]
  | (k', v') :: m' => if String.eqb k k' then (k, v) :: m' else (k', v') :: obj_set k v m'
  end.

Definition max_nesting_depth : nat := 10000.

(** A value after optional white space: the decoded value, whether a
    number in it is out of the [float64] range, and the input left.
    [depth] counts the arrays and objects already open. *)
Fixpoint parse_value (fuel depth : nat) (s : string) : option (json * bool * string) :=
  match fuel with
  | 0 => None
  | S f =>
      match skip_ws s with
      | EmptyString => None
      | String c r =>
          if Ascii.eqb c "{"%char then
            if Nat.ltb depth max_nesting_depth then parse_object f (S depth) r else None
          else if Ascii.eqb c "["%char then
            if Nat.ltb depth max_nesting_depth then parse_array f (S depth) r else None
          else if Ascii.eqb c dquote then
            match parse_str (S (String.length r)) r with
            | Some (str, r') => Some (JString str, false, r')
            | None => None
            end
          else if HasPrefix (String c r) "true" then Some (JBool true, false, drop 4 (String c r))
          else if HasPrefix (String c r) "false" then Some (JBool false, false, drop 5 (String c r))
          else if HasPrefix (String c r) "null" then Some (JNull, false, drop 4 (String c r))
          else
            match parse_number (String c r) with
            | Some (lit, m, e, r') => Some (JNumber lit, float64_overflows m e, r')
            | None => None
            end
      end
  end
(** After ['{']. *)
with parse_object (fuel depth : nat) (s : string) : option (json * bool * string) :=
  match fuel with
  | 0 => None
  | S f =>
      match skip_ws s with
      | String c r =>
          if Ascii.eqb c "}"%char then Some (JObject [], false, r)
          else parse_members f depth [] false (String c r)
      | EmptyString => None
      end
  end
(** At a [key: value] member, with the bindings [acc] read so far. *)
with parse_members (fuel depth : nat) (acc : list (string * json)) (err : bool)
    (s : string) : option (json * bool * string) :=
  match fuel with
  | 0 => None
  | S f =>
      match skip_ws s with
      | String c r =>
          if Ascii.eqb c dquote then
            match parse_str (S (String.length r)) r with
            | Some (k, r1) =>
                match skip_ws r1 with
                | String c1 r2 =>
                    if Ascii.eqb c1 ":"%char then
                      match parse_value f depth r2 with
                      | Some (v, e, r3) =>
                          let acc' := obj_set k v acc in
                          let err' := err || e in
                          match skip_ws r3 with
                          | String c3 r4 =>
                              if Ascii.eqb c3 ","%char then parse_members f depth acc' err' r4
                              else if Ascii.eqb c3 "}"%char then Some (JObject acc', err', r4)
                              else None
                          | EmptyString => None
                          end
                      | None => None
                      end
                    else None
                | EmptyString => None
                end
            | None => None
            end
          else None
      | EmptyString => None
      end
  end
(** After ['[']. *)
with parse_array (fuel depth : nat) (s : string) : option (json * bool * string) :=
  match fuel with
  | 0 => None
  | S f =>
      match skip_ws s with
      | String c r =>
          if Ascii.eqb c "]"%char then Some (JArray [], false, r)
          else parse_elements f depth [] false (String c r)
      | EmptyString => None
      end
  end
(** At an element, with the elements [acc] read so far. *)
with parse_elements (fuel depth : nat) (acc : list json) (err : bool)
    (s : string) : option (json * bool * string) :=
  match fuel with
  | 0 => None
  | S f =>
      match parse_value f depth s with
      | Some (v, e, r) =>
          let acc' := acc ++ [v] in
          let err' := err || e in
          match skip_ws r with
          | String c r' =>
              if Ascii.eqb c ","%char then parse_elements f depth acc' err' r'
              else if Ascii.eqb c "]"%char then Some (JArray acc', err', r')
              else None
          | EmptyString => None
          end
      | None => None
      end
  end.

(** The whole input is one value and white space.  Between two consumed
    bytes the parser makes at most four calls, so [4 * (len + 1)] rounds
    do not run out. *)
Definition parse_json (data : string) : option (json * bool) :=
  match parse_value (4 * S (String.length data)) 0 data with
  | Some (v, err, r) => if String.eqb (skip_ws r) EmptyString then Some (v, err) else None
  | None => None
  end.

(** [var result map[string]interface{}; err := json.Unmarshal(data, &result)]:
    a syntax error first; [null] leaves the map [nil] (no binding); any
    other non-object value, or a number out of range, is an
    [UnmarshalTypeError]. *)
Definition json_Unmarshal_map (data : string) : json_error + list (string * json) :=
  match parse_json data with
  | None => inl JSONSyntaxError
  | Some (JObject kvs, false) => inr kvs
  | Some (JNull, _) => inr []
  | Some (_, _) => inl JSONUnmarshalTypeError
  end.

(* ------------------------------------------------------------------ *)
(** ** The caption-list extractor *)

(** The markers [\x22captions\x22:] and [,\x22videoDetails\x22]. *)
Definition captions_marker : string :=
  String dquote (String.append "captions" (String dquote ":")).

Definition videoDetails_marker : string :=
  String ","%char (String dquote (String.append "videoDetails" (String dquote EmptyString))).

Definition extractCaptionsJSON (html videoID : string) : result (list (string * json)) :=
  let parts := Split html captions_marker in
  if Nat.leb (List.length parts) 1 then Err ErrTranscriptsUnavailable else
  let jsonPart := List.nth 0 (Split (List.nth 1 parts EmptyString) videoDetails_marker) EmptyString in
  let jsonPart := delete_byte newline jsonPart in
  match json_Unmarshal_map jsonPart with
  | inl err => Err (ErrJSON err)
  | inr result =>
      match as_map (map_index "playerCaptionsTracklistRenderer" result) with
      | Some captionsJSON => Ok captionsJSON
      | None => Err ErrTranscriptsDisabled
      end
  end.

(** Views of the cut points: [s = pre ++ sep ++ post] at the first
    occurrence of [sep]; and [p] is [s] up to the first occurrence of
    [sep], or all of [s] when there is none. *)
Definition first_occurrence (s sep pre post : string) : Prop :=
  s = String.append pre (String.append sep post) /\
  forall pre' post', s = String.append pre' (String.append sep post') ->
    String.length pre <= String.length pre'.

Definition before_first (s sep p : string) : Prop :=
  (exists post, first_occurrence s sep p post) \/ (~ occurs sep s /\ p = s).

(** Pages for the extractor: a payload holding a nested [captions] key,
    and the page around it. *)
Definition concat_str (l : list string) : string := fold_right String.append EmptyString l.

Definition quoted (s : string) : string := String dquote (String.append s (String dquote EmptyString)).

Definition nested_seg : string :=
  concat_str ["{"; quoted "playerCaptionsTracklistRenderer"; ":{";
              quoted "captionTracks"; ":[]},"; quoted "a"; ":{"].

Definition nested_payload : string :=
  concat_str [nested_seg; captions_marker; "1}}"].

Definition nested_rest : string :=
  concat_str [nested_payload; videoDetails_marker; ":{}"].

Definition nested_page : string := String.append captions_marker nested_rest.

(* ------------------------------------------------------------------ *)
(** ** [strconv.ParseFloat(s, 64)]

    A [float64] is kept as the rational it denotes, or an infinity, or
    NaN (the sign of a zero is not kept).  Parsing is exact and then
    rounded once to the nearest [float64] (ties to even), which is what
    [ParseFloat] computes; a result that rounds to an infinity is its
    [ErrRange] failure. *)

Inductive float64 :=
| F64 (q : Q)
| F64Inf (neg : bool)
| F64NaN.

(** The [float64] nearest to [n / d] for [n, d > 0]: [None] when it is an
    infinity.  [k] is [floor (log2 (n / d))]; the result has 53
    significant bits, or fewer below [2^-1022] (subnormals). *)
Definition round_pos (n d : Z) : option Q :=
  let k0 := (Z.log2 n - Z.log2 d)%Z in
  let ge := if Z.leb 0 k0 then Z.leb (d * 2 ^ k0) n else Z.leb d (n * 2 ^ (- k0)) in
  let k := if ge then k0 else (k0 - 1)%Z in
  let e := Z.max (k - 52) (-1074) in
  let num := if Z.leb 0 e then n else (n * 2 ^ (- e))%Z in
  let den := if Z.leb 0 e then (d * 2 ^ e)%Z else d in
  let m0 := (num / den)%Z in
  let r2 := (2 * (num mod den))%Z in
  let m := if Z.ltb den r2 then (m0 + 1)%Z
           else if Z.eqb den r2 then (if Z.odd m0 then (m0 + 1)%Z else m0)
           else m0 in
  if Z.leb 0 e then
    (if Z.leb (2 ^ 1024) (m * 2 ^ e) then None else Some (Qred (Qmake (m * 2 ^ e) 1)))
  else Some (Qred (Qmake m (Z.to_pos (2 ^ (- e))))).

(** The [float64] nearest to [m * base^e], negated when [neg]. *)
Definition round_float64 (neg : bool) (m base e : Z) : option float64 :=
  if Z.eqb m 0 then Some (F64 0)
  else
    let r := if Z.leb 0 e then round_pos (m * base ^ e) 1 else round_pos m (base ^ (- e)) in
    match r with
    | Some q => Some (F64 (if neg then Qopp q else q))
    | None => None
    end.

Definition lower (c : ascii) : ascii :=
  let n := nat_of_ascii c in
  if Nat.leb 65 n && Nat.leb n 90 then ascii_of_nat (n + 32) else c.

Fixpoint lower_string (s : string) : string :=
  match s with
  | String c s' => String (lower c) (lower_string s')
  | EmptyString => EmptyString
  end.

(** [special]: [inf] and [infinity] with an optional sign, [nan] without,
    in any case, as the whole input. *)
Definition special (s : string) : option float64 :=
  let '(neg, signed, t) :=
    match s with
    | String c r =>
        if Ascii.eqb c "+"%char then (false, true, r)
        else if Ascii.eqb c "-"%char then (true, true, r) else (false, false, s)
    | EmptyString => (false, false, s)
    end in
  let l := lower_string t in
  if String.eqb l "inf" || String.eqb l "infinity" then Some (F64Inf neg)
  else if negb signed && String.eqb l "nan" then Some F64NaN
  else None.

Definition digit_value (hex : bool) (c : ascii) : option Z :=
  let n := nat_of_ascii c in
  if Nat.leb 48 n && Nat.leb n 57 then Some (Z.of_nat (n - 48))
  else if hex && Nat.leb 97 (nat_of_ascii (lower c)) && Nat.leb (nat_of_ascii (lower c)) 102
  then Some (Z.of_nat (nat_of_ascii (lower c) - 87))
  else None.

(** The mantissa loop of [readFloat]: digits, [_] and one ['.'];
    returns the digits' value, the number of digits after the dot,
    whether a digit and an underscore were seen, and the rest. *)
Fixpoint mant_loop (hex sawdot : bool) (m nfrac : Z) (digits unders : bool) (s : string)
    : Z * Z * bool * bool * string :=
  match s with
  | String c r =>
      if Ascii.eqb c "_"%char then mant_loop hex sawdot m nfrac digits true r
      else if Ascii.eqb c "."%char then
        (if sawdot then (m, nfrac, digits, unders, s)
         else mant_loop hex true m nfrac digits unders r)
      else match digit_value hex c with
           | Some v =>
               mant_loop hex sawdot (m * (if hex then 16 else 10) + v)%Z
                 (if sawdot then (nfrac + 1)%Z else nfrac) true unders r
           | None => (m, nfrac, digits, unders, s)
           end
  | EmptyString => (m, nfrac, digits, unders, s)
  end.

(** The exponent digits and [_]; the value stops growing from 10000 on. *)
Fixpoint exp_loop (e : Z) (unders : bool) (s : string) : Z * bool * string :=
  match s with
  | String c r =>
      if Ascii.eqb c "_"%char then exp_loop e true r
      else if is_digit c then
        exp_loop (if Z.ltb e 10000 then (e * 10 + Z.of_nat (nat_of_ascii c - 48))%Z else e)
          unders r
      else (e, unders, s)
  | EmptyString => (e, unders, s)
  end.

(** [underscoreOK]: an underscore only between digits, or between the
    base prefix and a digit. *)
Inductive us_state := USStart | USDigit | USUnder | USOther.

Fixpoint us_loop (hex : bool) (saw : us_state) (s : string) : bool :=
  match s with
  | EmptyString => match saw with USUnder => false | _ => true end
  | String c r =>
      if is_digit c || hex && Nat.leb 97 (nat_of_ascii (lower c))
                           && Nat.leb (nat_of_ascii (lower c)) 102
      then us_loop hex USDigit r
      else if Ascii.eqb c "_"%char then
        match saw with USDigit => us_loop hex USUnder r | _ => false end
      else match saw with USUnder => false | _ => us_loop hex USOther r end
  end.

Definition underscore_ok (s : string) : bool :=
  let s1 := match s with
            | String c r => if Ascii.eqb c "+"%char || Ascii.eqb c "-"%char then r else s
            | EmptyString => s
            end in
  match s1 with
  | String z (String b r) =>
      if Ascii.eqb z "0"%char &&
         (Ascii.eqb (lower b) "b"%char || Ascii.eqb (lower b) "o"%char || Ascii.eqb (lower b) "x"%char)
      then us_loop (Ascii.eqb (lower b) "x"%char) USDigit r
      else us_loop false USStart s1
  | _ => us_loop false USStart s1
  end.

(** [readFloat] followed by the conversion, when it reads the whole
    input: decimal [d.ddd e+-ddd] or hexadecimal [0x h.hhh p+-ddd] (the
    [p] exponent is required), with [_] separators. *)
Definition read_float (s : string) : option float64 :=
  let '(neg, s1) :=
    match s with
    | String c r =>
        if Ascii.eqb c "+"%char then (false, r)
        else if Ascii.eqb c "-"%char then (true, r) else (false, s)
    | EmptyString => (false, s)
    end in
  let hex := match s1 with
             | String z (String x (String _ _)) => Ascii.eqb z "0"%char && Ascii.eqb (lower x) "x"%char
             | _ => false
             end in
  let s2 := if hex then drop 2 s1 else s1 in
  let '(m, nfrac, digits, u1, s3) := mant_loop hex false 0%Z 0%Z false false s2 in
  if negb digits then None else
  let expc := if hex then "p"%char else "e"%char in
  let exp_res :=
    match s3 with
    | String c r =>
        if Ascii.eqb (lower c) expc then
          let '(eneg, r1) :=
            match r with
            | String d r' =>
                if Ascii.eqb d "+"%char then (false, r')
                else if Ascii.eqb d "-"%char then (true, r') else (false, r)
            | EmptyString => (false, r)
            end in
          match r1 with
          | String d _ =>
              if is_digit d then
                let '(e, u2, r2) := exp_loop 0%Z false r1 in
                Some ((if eneg then - e else e)%Z, u2, r2)
              else None
          | EmptyString => None
          end
        else if hex then None else Some (0%Z, false, s3)
    | EmptyString => if hex then None else Some (0%Z, false, s3)
    end in
  match exp_res with
  | None => None
  | Some (e, u2, rest) =>
      if negb (String.eqb rest EmptyString) then None
      else if (u1 || u2) && negb (underscore_ok s) then None
      else round_float64 neg m (if hex then 2%Z else 10%Z)
             (e - (if hex then 4 else 1) * nfrac)%Z
  end.

Definition ParseFloat (s : string) : option float64 :=
  match special s with
  | Some f => Some f
  | None => read_float s
  end.

(** [strings.TrimSpace]: leading and trailing runes that [unicode.IsSpace]
    accepts. *)
Definition bytes_of (l : list nat) : string :=
  fold_right (fun n s => String (ascii_of_nat n) s) EmptyString l.

Definition space_runes : list string :=
  map bytes_of
    ([[9]; [10]; [11]; [12]; [13]; [32]; [194; 133]; [194; 160]; [225; 154; 128];
      [226; 128; 168]; [226; 128; 169]; [226; 128; 175]; [226; 129; 159]; [227; 128; 128]]
     ++ map (fun k => [226; 128; 128 + k]) (seq 0 11)).

Definition is_space_rune (r : string) : bool := existsb (String.eqb r) space_runes.

Fixpoint drop_spaces (rs : list string) : list string :=
  match rs with
  | r :: rs' => if is_space_rune r then drop_spaces rs' else rs
  | [] => []
  end.

Definition TrimSpace (s : string) : string :=
  fold_right String.append EmptyString (rev (drop_spaces (rev (drop_spaces (runes s))))).

(** [copyValue] into a [float64] field: an empty value is 0, otherwise
    the trimmed value must parse. *)
Definition copy_float (v : string) : xml_error + float64 :=
  if String.eqb v EmptyString then inr (F64 0)
  else match ParseFloat (TrimSpace v) with
       | Some f => inr f
       | None => inl XMLParseFloatError
       end.

(* ------------------------------------------------------------------ *)
(** ** The [encoding/xml] tokenizer ([Decoder.rawToken], strict mode)

    Token names are kept raw ([prefix:local]); only their local part
    matters to [Unmarshal] here.  Names are checked by [isName] with one
    simplification: a valid multi-byte rune counts as a name character
    (Go checks it against its XML letter tables). *)

Inductive xml_token :=
| TStart (name : string) (attrs : list (string * string))
| TEnd (name : string)
| TChar (data : string)
| TComment (data : string)
| TProcInst (target inst : string)
| TDirective (data : string).

Definition lt_char : ascii := "<"%char.
Definition gt_char : ascii := ">"%char.
Definition cr_char : ascii := ascii_of_nat 13.
Definition squote : ascii := "'"%char.

(** The reversed bytes [acc] as a string. *)
Definition string_of_rev (acc : list ascii) : string :=
  fold_left (fun s c => String c s) acc EmptyString.

Definition is_name_byte (c : ascii) : bool :=
  let n := nat_of_ascii c in
  (Nat.leb 65 n && Nat.leb n 90) || (Nat.leb 97 n && Nat.leb n 122) ||
  (Nat.leb 48 n && Nat.leb n 57) || Nat.eqb n 95 || Nat.eqb n 58 || Nat.eqb n 46 || Nat.eqb n 45.

(** [readName]: bytes up to an ASCII byte that is not a name byte (an
    empty name when the first byte is one); the input ending first is an
    error ([mustgetc]). *)
Fixpoint read_name (s : string) : xml_error + (string * string) :=
  match s with
  | EmptyString => inl XMLSyntaxError
  | String c r =>
      if Nat.ltb (nat_of_ascii c) 128 && negb (is_name_byte c) then inr (EmptyString, s)
      else match read_name r with
           | inl e => inl e
           | inr (nm, r') => inr (String c nm, r')
           end
  end.

Definition name_rune (first : bool) (r : string) : bool :=
  match r with
  | String c EmptyString =>
      let n := nat_of_ascii c in
      Nat.ltb n 128 &&
      ((Nat.leb 65 n && Nat.leb n 90) || (Nat.leb 97 n && Nat.leb n 122) ||
       Nat.eqb n 95 || Nat.eqb n 58 ||
       negb first && ((Nat.leb 48 n && Nat.leb n 57) || Nat.eqb n 46 || Nat.eqb n 45))
  | _ => true
  end.

Definition is_name (nm : string) : bool :=
  match runes nm with
  | [] => false
  | r :: rs => name_rune true r && forallb (name_rune false) rs
  end.

(** [Decoder.name] and [Decoder.nsname] (at most one colon). *)
Definition name_go (s : string) : xml_error + (string * string) :=
  match read_name s with
  | inl e => inl e
  | inr (nm, r) => if is_name nm then inr (nm, r) else inl XMLSyntaxError
  end.

Fixpoint count_byte (c : ascii) (s : string) : nat :=
  match s with
  | String d s' => (if Ascii.eqb c d then 1 else 0) + count_byte c s'
  | EmptyString => 0
  end.

Definition nsname_go (s : string) : xml_error + (string * string) :=
  match name_go s with
  | inl e => inl e
  | inr (nm, r) => if Nat.ltb 1 (count_byte ":"%char nm) then inl XMLSyntaxError else inr (nm, r)
  end.

(** [Name.Local]: the part after the colon of [prefix:local] when both
    parts are non-empty ([strings.Cut]), the whole name otherwise. *)
Definition local_name (nm : string) : string :=
  match Index nm ":" with
  | Some i =>
      let sp := take i nm in
      let lc := drop (S i) nm in
      if String.eqb sp EmptyString || String.eqb lc EmptyString then nm else lc
  | None => nm
  end.

(** [Decoder.space] *)
Fixpoint space_go (s : string) : string :=
  match s with
  | String c r =>
      let n := nat_of_ascii c in
      if Nat.eqb n 32 || Nat.eqb n 13 || Nat.eqb n 10 || Nat.eqb n 9 then space_go r else s
  | EmptyString => EmptyString
  end.

(** Entity references after ['&']: the five predefined ones and
    [&#ddd;] / [&#xhhh;] up to [unicode.MaxRune] ([string(rune(n))]
    makes a surrogate U+FFFD).  Anything else is an error in strict
    mode. *)
Fixpoint span_base_digits (hex : bool) (n : N) (nonempty : bool) (s : string)
    : N * bool * string :=
  match s with
  | String c r =>
      match digit_value hex c with
      | Some v => span_base_digits hex (n * (if hex then 16 else 10) + Z.to_N v)%N true r
      | None => (n, nonempty, s)
      end
  | EmptyString => (n, nonempty, s)
  end.

Definition predefined_entities : list (string * ascii) :=
  [("lt", "<"%char); ("gt", ">"%char); ("amp", "&"%char); ("apos", "'"%char); ("quot", dquote)].

Definition entity_go (s : string) : option (string * string) :=
  match s with
  | String h r =>
      if Ascii.eqb h "#"%char then
        let '(hex, r1) := match r with
                          | String x r' => if Ascii.eqb x "x"%char then (true, r') else (false, r)
                          | EmptyString => (false, r)
                          end in
        let '(n, nonempty, r2) := span_base_digits hex 0%N false r1 in
        match r2 with
        | String sc r3 =>
            if Ascii.eqb sc ";"%char && nonempty && N.leb n 1114111 then
              Some (if is_surrogate n then replacement_char else utf8_encode n, r3)
            else None
        | EmptyString => None
        end
      else
        match find (fun '(nm, _) => HasPrefix s (String.append nm ";")) predefined_entities with
        | Some (nm, c) => Some (String c EmptyString, drop (S (String.length nm)) s)
        | None => None
        end
  | EmptyString => None
  end.

(** The check closing [Decoder.text]: valid UTF-8 whose runes are XML
    characters ([isInCharacterRange]: tab, newline, carriage return,
    [0x20-0xD7FF], [0xE000-0xFFFD], [0x10000-0x10FFFF]). *)
Fixpoint chars_ok_go (fuel : nat) (s : string) : bool :=
  match fuel with
  | 0 => true
  | S f =>
      match s with
      | EmptyString => true
      | String c r =>
          let n := nat_of_ascii c in
          if Nat.ltb n 128 then
            (Nat.eqb n 9 || Nat.eqb n 10 || Nat.eqb n 13 || Nat.leb 32 n) && chars_ok_go f r
          else
            let w := rune_width s in
            if Nat.eqb w 1 then false
            else if String.eqb (take 3 s) (bytes_of [239; 191; 190]) ||
                    String.eqb (take 3 s) (bytes_of [239; 191; 191]) then false
            else chars_ok_go f (drop w s)
      end
  end.

Definition chars_ok (s : string) : bool := chars_ok_go (S (String.length s)) s.

(** [Decoder.text(quote, cdata)]: character data up to ['<'] (or the end
    of input), a quoted attribute value up to its quote, or a CDATA
    section up to [\]\]>].  [acc] holds the bytes read, reversed; [b0],
    [b1] the last two raw bytes.  Entities are decoded outside CDATA, and
    [\r\n] and a lone [\r] become [\n]. *)
Fixpoint text_go (fuel : nat) (quote : option ascii) (cdata : bool) (b0 b1 : ascii)
    (acc : list ascii) (s : string) : xml_error + (list ascii * string) :=
  match fuel with
  | 0 => inl XMLSyntaxError
  | S f =>
      match s with
      | EmptyString => if cdata then inl XMLSyntaxError else inr (acc, EmptyString)
      | String b r =>
          if match quote with None => true | Some _ => false end &&
             Ascii.eqb b0 "]"%char && Ascii.eqb b1 "]"%char && Ascii.eqb b gt_char then
            (if cdata then inr (skipn 2 acc, r) else inl XMLSyntaxError)
          else if Ascii.eqb b lt_char && negb cdata then
            match quote with Some _ => inl XMLSyntaxError | None => inr (acc, s) end
          else if match quote with Some q => Ascii.eqb b q | None => false end then inr (acc, r)
          else if Ascii.eqb b "&"%char && negb cdata then
            match entity_go r with
            | Some (txt, r') =>
                text_go f quote cdata zero zero (rev_append (list_ascii_of_string txt) acc) r'
            | None => inl XMLSyntaxError
            end
          else
            let acc' := if Ascii.eqb b cr_char then newline :: acc
                        else if Ascii.eqb b1 cr_char && Ascii.eqb b newline then acc
                        else b :: acc in
            text_go f quote cdata b1 b acc' r
      end
  end.

Definition text (quote : option ascii) (cdata : bool) (s : string) : xml_error + (string * string) :=
  match text_go (S (String.length s)) quote cdata zero zero [] s with
  | inl e => inl e
  | inr (acc, r) =>
      let d := string_of_rev acc in
      if chars_ok d then inr (d, r) else inl XMLSyntaxError
  end.

(** A comment after [<!--]: up to [-->]; [--] not followed by ['>'] is
    an error. *)
Fixpoint comment_go (b0 b1 : ascii) (acc : list ascii) (s : string) : xml_error + (string * string) :=
  match s with
  | EmptyString => inl XMLSyntaxError
  | String b r =>
      if Ascii.eqb b0 "-"%char && Ascii.eqb b1 "-"%char then
        (if Ascii.eqb b gt_char then inr (string_of_rev (skipn 2 acc), r) else inl XMLSyntaxError)
      else comment_go b1 b (b :: acc) r
  end.

(** A processing instruction's body: up to [?>]. *)
Fixpoint pi_go (b0 : ascii) (acc : list ascii) (s : string) : xml_error + (string * string) :=
  match s with
  | EmptyString => inl XMLSyntaxError
  | String b r =>
      if Ascii.eqb b0 "?"%char && Ascii.eqb b gt_char then inr (string_of_rev (skipn 1 acc), r)
      else pi_go b (b :: acc) r
  end.

(** [procInst(param, s)]: the quoted value after the first [param=]
    followed by a quote. *)
Fixpoint proc_inst_go (fuel : nat) (param s : string) : string :=
  match fuel with
  | 0 => EmptyString
  | S f =>
      match s with
      | EmptyString => EmptyString
      | _ =>
          match Index s param with
          | None => EmptyString
          | Some k =>
              if Nat.leb (String.length s) (String.length param + k) then EmptyString
              else
                let rest := drop (String.length param + k + 1) s in
                match String.get (String.length param + k) s with
                | Some c =>
                    if Ascii.eqb c squote || Ascii.eqb c dquote then
                      match Index rest (String c EmptyString) with
                      | Some j => take j rest
                      | None => EmptyString
                      end
                    else proc_inst_go f param rest
                | None => EmptyString
                end
          end
      end
  end.

Definition procInst (param s : string) : string :=
  proc_inst_go (S (String.length s)) (String.append param "=") s.

(** The [<?xml ...?>] declaration: version 1.0 and UTF-8 only (no
    [CharsetReader]). *)
Definition xml_decl_ok (inst : string) : bool :=
  let ver := procInst "version" inst in
  let enc := procInst "encoding" inst in
  (String.eqb ver EmptyString || String.eqb ver "1.0") &&
  (String.eqb enc EmptyString || String.eqb (lower_string enc) "utf-8").

(** A comment inside a directive, after its [<!--]: the input after
    [-->]. *)
Fixpoint skip_dir_comment (b0 b1 : ascii) (s : string) : option string :=
  match s with
  | EmptyString => None
  | String b r =>
      if Ascii.eqb b0 "-"%char && Ascii.eqb b1 "-"%char && Ascii.eqb b gt_char then Some r
      else skip_dir_comment b1 b r
  end.

(** A directive [<!...>] after its first byte: nested [<...>] and quotes
    are skipped, a comment inside becomes a space.  [handle_b] is the
    [HandleB] label, also reached by [goto] after a ['<'] that does not
    start [<!--]. *)
Fixpoint directive_go (fuel : nat) (inquote : ascii) (depth : nat) (acc : list ascii)
    (s : string) : xml_error + (string * string) :=
  match fuel with
  | 0 => inl XMLSyntaxError
  | S f =>
      match s with
      | EmptyString => inl XMLSyntaxError
      | String b r =>
          if Ascii.eqb inquote zero && Ascii.eqb b gt_char && Nat.eqb depth 0
          then inr (string_of_rev acc, r)
          else handle_b f inquote depth acc b r
      end
  end
with handle_b (fuel : nat) (inquote : ascii) (depth : nat) (acc : list ascii) (b : ascii)
    (r : string) : xml_error + (string * string) :=
  match fuel with
  | 0 => inl XMLSyntaxError
  | S f =>
      let acc := b :: acc in
      if Ascii.eqb b inquote then directive_go f zero depth acc r
      else if negb (Ascii.eqb inquote zero) then directive_go f inquote depth acc r
      else if Ascii.eqb b squote || Ascii.eqb b dquote then directive_go f b depth acc r
      else if Ascii.eqb b gt_char then directive_go f inquote (depth - 1) acc r
      else if Ascii.eqb b lt_char then
        match r with
        | EmptyString => inl XMLSyntaxError
        | String c1 r1 =>
            if negb (Ascii.eqb c1 "!"%char) then handle_b f inquote (S depth) acc c1 r1
            else match r1 with
                 | EmptyString => inl XMLSyntaxError
                 | String c2 r2 =>
                     if negb (Ascii.eqb c2 "-"%char)
                     then handle_b f inquote (S depth) ("!"%char :: acc) c2 r2
                     else match r2 with
                          | EmptyString => inl XMLSyntaxError
                          | String c3 r3 =>
                              if negb (Ascii.eqb c3 "-"%char)
                              then handle_b f inquote (S depth) ("-"%char :: "!"%char :: acc) c3 r3
                              else match skip_dir_comment zero zero r3 with
                                   | Some r4 => directive_go f inquote depth (" "%char :: tl acc) r4
                                   | None => inl XMLSyntaxError
                                   end
                          end
                 end
        end
      else directive_go f inquote depth acc r
  end.

(** The attributes of a start tag, up to ['>'] or [/>] (the boolean):
    [name = "value"] or [name = 'value'], white space optional between
    attributes; strict mode requires [=] and a quoted value. *)
Fixpoint attrs_go (fuel : nat) (acc : list (string * string)) (s : string)
    : xml_error + (list (string * string) * bool * string) :=
  match fuel with
  | 0 => inl XMLSyntaxError
  | S f =>
      let s := space_go s in
      match s with
      | EmptyString => inl XMLSyntaxError
      | String b r =>
          if Ascii.eqb b "/"%char then
            match r with
            | String c r' => if Ascii.eqb c gt_char then inr (rev acc, true, r') else inl XMLSyntaxError
            | EmptyString => inl XMLSyntaxError
            end
          else if Ascii.eqb b gt_char then inr (rev acc, false, r)
          else
            match nsname_go s with
            | inl e => inl e
            | inr (nm, r1) =>
                match space_go r1 with
                | String eq r2 =>
                    if Ascii.eqb eq "="%char then
                      match space_go r2 with
                      | String q r3 =>
                          if Ascii.eqb q dquote || Ascii.eqb q squote then
                            match text (Some q) false r3 with
                            | inl e => inl e
                            | inr (v, r4) => attrs_go f ((nm, v) :: acc) r4
                            end
                          else inl XMLSyntaxError
                      | EmptyString => inl XMLSyntaxError
                      end
                    else inl XMLSyntaxError
                | EmptyString => inl XMLSyntaxError
                end
            end
      end
  end.

(** One raw token; the boolean of a start element tells a [/>]
    ([needClose]: its end element comes next). *)
Inductive raw_result :=
| RTok (t : xml_token) (close : bool) (rest : string)
| RErr (e : xml_error)
| REOF.

Definition of_text (k : string -> xml_token) (r : xml_error + (string * string)) : raw_result :=
  match r with
  | inl e => RErr e
  | inr (d, rest) => RTok (k d) false rest
  end.

Definition rawToken (s : string) : raw_result :=
  match s with
  | EmptyString => REOF
  | String b r =>
      if negb (Ascii.eqb b lt_char) then of_text TChar (text None false s)
      else
        match r with
        | EmptyString => RErr XMLSyntaxError
        | String c r1 =>
            if Ascii.eqb c "/"%char then
              match nsname_go r1 with
              | inl e => RErr e
              | inr (nm, r2) =>
                  match space_go r2 with
                  | String g r3 => if Ascii.eqb g gt_char then RTok (TEnd nm) false r3
                                   else RErr XMLSyntaxError
                  | EmptyString => RErr XMLSyntaxError
                  end
              end
            else if Ascii.eqb c "?"%char then
              match name_go r1 with
              | inl e => RErr e
              | inr (target, r2) =>
                  match pi_go zero [] (space_go r2) with
                  | inl e => RErr e
                  | inr (inst, r3) =>
                      if String.eqb target "xml" && negb (xml_decl_ok inst) then RErr XMLDeclError
                      else RTok (TProcInst target inst) false r3
                  end
              end
            else if Ascii.eqb c "!"%char then
              match r1 with
              | EmptyString => RErr XMLSyntaxError
              | String d r2 =>
                  if Ascii.eqb d "-"%char then
                    match r2 with
                    | String d' r3 =>
                        if Ascii.eqb d' "-"%char then of_text TComment (comment_go zero zero [] r3)
                        else RErr XMLSyntaxError
                    | EmptyString => RErr XMLSyntaxError
                    end
                  else if Ascii.eqb d "["%char then
                    if HasPrefix r2 "CDATA[" then of_text TChar (text None true (drop 6 r2))
                    else RErr XMLSyntaxError
                  else of_text TDirective
                         (directive_go (2 * S (String.length r2)) zero 0 [d] r2)
              end
            else
              match nsname_go r with
              | inl e => RErr e
              | inr (nm, r2) =>
                  match attrs_go (S (String.length r2)) [] r2 with
                  | inl e => RErr e
                  | inr (attrs, empty, r3) => RTok (TStart nm attrs) empty r3
                  end
              end
        end
  end.

Definition cons_token (t : xml_token) (p : list xml_token * xml_error) : list xml_token * xml_error :=
  (t :: fst p, snd p).

(** [Decoder.Token]: the raw tokens, with the stack of open elements;
    an end element must close the innermost open one, and the end of
    input is [io.EOF] only outside every element.  The stream is listed
    up to its first error, which it ends with. *)
Fixpoint token_stream (fuel : nat) (stk : list string) (s : string) : list xml_token * xml_error :=
  match fuel with
  | 0 => ([], XMLSyntaxError)
  | S f =>
      match rawToken s with
      | REOF => ([], match stk with [] => XMLEOF | _ => XMLSyntaxError end)
      | RErr e => ([], e)
      | RTok (TStart nm attrs) empty r =>
          if empty then cons_token (TStart nm attrs) (cons_token (TEnd nm) (token_stream f stk r))
          else cons_token (TStart nm attrs) (token_stream f (nm :: stk) r)
      | RTok (TEnd nm) _ r =>
          match stk with
          | top :: stk' =>
              if String.eqb top nm then cons_token (TEnd nm) (token_stream f stk' r)
              else ([], XMLSyntaxError)
          | [] => ([], XMLSyntaxError)
          end
      | RTok t _ r => cons_token t (token_stream f stk r)
      end
  end.

Definition tokens (xmlData : string) : list xml_token * xml_error :=
  token_stream (S (String.length xmlData)) [] xmlData.

(* ------------------------------------------------------------------ *)
(** ** The transcript decoder ([parseTranscript])

    [xml.Unmarshal(data, &transcript)] with
    [struct { Entries []TranscriptEntry `xml:"text"` }]: the first start
    element is the root (its name and attributes are not looked at); each
    child element of the root whose local name is [text] is appended to
    [Entries]; every other child is skipped with its content; the root's
    end element ends decoding, and nothing after it is read. *)

Record TranscriptEntry := {
  Text : string;      (* xml:",chardata" *)
  Start : float64;    (* xml:"start,attr" *)
  Duration : float64  (* xml:"dur,attr" *)
}.

(** [Decoder.Skip] after a start element: the tokens after its end. *)
Fixpoint skip_go (depth : nat) (ts : list xml_token) (fin : xml_error)
    : xml_error + list xml_token :=
  match ts with
  | [] => inl fin
  | TStart _ _ :: ts' => skip_go (S depth) ts' fin
  | TEnd _ :: ts' => match depth with 0 => inr ts' | S d => skip_go d ts' fin end
  | _ :: ts' => skip_go depth ts' fin
  end.

(** The attribute loop for a [TranscriptEntry]: an attribute whose local
    name is [start] or [dur] is copied into its field, in order; the
    first one that does not convert fails the decoding. *)
Fixpoint entry_attrs (attrs : list (string * string)) (st du : float64)
    : xml_error + (float64 * float64) :=
  match attrs with
  | [] => inr (st, du)
  | (nm, v) :: attrs' =>
      if String.eqb (local_name nm) "start" then
        match copy_float v with
        | inl e => inl e
        | inr x => entry_attrs attrs' x du
        end
      else if String.eqb (local_name nm) "dur" then
        match copy_float v with
        | inl e => inl e
        | inr x => entry_attrs attrs' st x
        end
      else entry_attrs attrs' st du
  end.

(** The body of a [TranscriptEntry] element: its direct character data
    ([,chardata]) up to its end element.  A child element, which no field
    takes, is skipped; [depth] counts the skipped elements still open, so
    the loop with its calls to [Skip] is one pass. *)
Fixpoint entry_body (depth : nat) (acc : string) (ts : list xml_token) (fin : xml_error)
    : xml_error + (string * list xml_token) :=
  match ts with
  | [] => inl fin
  | TChar d :: ts' =>
      entry_body depth (if Nat.eqb depth 0 then String.append acc d else acc) ts' fin
  | TStart _ _ :: ts' => entry_body (S depth) acc ts' fin
  | TEnd _ :: ts' =>
      match depth with
      | 0 => inr (acc, ts')
      | S d => entry_body d acc ts' fin
      end
  | _ :: ts' => entry_body depth acc ts' fin
  end.

(** [d.unmarshal] of one [TranscriptEntry] after its start element: the
    attributes, then the body. *)
Definition unmarshal_entry (attrs : list (string * string)) (ts : list xml_token)
    (fin : xml_error) : xml_error + (TranscriptEntry * list xml_token) :=
  match entry_attrs attrs (F64 0) (F64 0) with
  | inl e => inl e
  | inr (st, du) =>
      match entry_body 0 EmptyString ts fin with
      | inl e => inl e
      | inr (txt, ts') => inr ({| Text := txt; Start := st; Duration := du |}, ts')
      end
  end.

(** The loop over the root's content; each round consumes a token. *)
Fixpoint root_loop (fuel : nat) (acc : list TranscriptEntry) (ts : list xml_token)
    (fin : xml_error) : xml_error + list TranscriptEntry :=
  match fuel with
  | 0 => inl fin
  | S f =>
      match ts with
      | [] => inl fin
      | TStart nm attrs :: ts' =>
          if String.eqb (local_name nm) "text" then
            match unmarshal_entry attrs ts' fin with
            | inl e => inl e
            | inr (entry, ts'') => root_loop f (acc ++ [entry]) ts'' fin
            end
          else
            match skip_go 0 ts' fin with
            | inl e => inl e
            | inr ts'' => root_loop f acc ts'' fin
            end
      | TEnd _ :: _ => inr acc
      | _ :: ts' => root_loop f acc ts' fin
      end
  end.

(** [Unmarshal]: tokens up to the first start element, then its
    content. *)
Fixpoint xml_Unmarshal (ts : list xml_token) (fin : xml_error) : xml_error + list TranscriptEntry :=
  match ts with
  | [] => inl fin
  | TStart _ _ :: ts' => root_loop (S (List.length ts')) [] ts' fin
  | _ :: ts' => xml_Unmarshal ts' fin
  end.

Definition strip_entry (e : TranscriptEntry) : TranscriptEntry :=
  {| Text := removeHTMLTags (Text e); Start := Start e; Duration := Duration e |}.

Definition parseTranscript (xmlData : string) : result (list TranscriptEntry) :=
  let '(ts, fin) := tokens xmlData in
  match xml_Unmarshal ts fin with
  | inl e => Err (ErrXML e)
  | inr entries => Ok (map strip_entry entries)
  end.

(** *** Documents as trees

    A well-formed element and its content, with the tokens [Token]
    delivers for it; and, following the decoder's description, the
    entries read off the children of the root. *)

Inductive xml_node :=
| NElem (name : string) (attrs : list (string * string)) (children : list xml_node)
| NChars (data : string)
| NComment (data : string)
| NProcInst (target inst : string)
| NDirective (data : string).

Fixpoint node_tokens (n : xml_node) : list xml_token :=
  match n with
  | NElem nm attrs cs => TStart nm attrs :: flat_map node_tokens cs ++ [TEnd nm]
  | NChars d => [TChar d]
  | NComment d => [TComment d]
  | NProcInst t i => [TProcInst t i]
  | NDirective d => [TDirective d]
  end.

Section xml_node_ind2.
Variable P : xml_node -> Prop.
Hypothesis HElem : forall nm attrs cs, Forall P cs -> P (NElem nm attrs cs).
Hypothesis HChars : forall d, P (NChars d).
Hypothesis HComment : forall d, P (NComment d).
Hypothesis HProcInst : forall t i, P (NProcInst t i).
Hypothesis HDirective : forall d, P (NDirective d).

Fixpoint xml_node_ind2 (n : xml_node) : P n :=
  match n with
  | NElem nm attrs cs =>
      HElem nm attrs cs
        ((fix go (cs : list xml_node) : Forall P cs :=
            match cs with
            | [] => @List.Forall_nil _ P
            | c :: cs' => @List.Forall_cons _ P c cs' (xml_node_ind2 c) (go cs')
            end) cs)
  | NChars d => HChars d
  | NComment d => HComment d
  | NProcInst t i => HProcInst t i
  | NDirective d => HDirective d
  end.
End xml_node_ind2.

(** The direct character data among children. *)
Fixpoint direct_chars (cs : list xml_node) : string :=
  match cs with
  | [] => EmptyString
  | NChars d :: cs' => String.append d (direct_chars cs')
  | _ :: cs' => direct_chars cs'
  end.

(** One entry per [text] child of the root, in order: its direct
    character data, and its [start] and [dur] attributes; the first
    entry whose attributes fail fails the document. *)
Definition spec_entry (attrs : list (string * string)) (children : list xml_node)
    : xml_error + TranscriptEntry :=
  match entry_attrs attrs (F64 0) (F64 0) with
  | inl e => inl e
  | inr (st, du) => inr {| Text := direct_chars children; Start := st; Duration := du |}
  end.

Fixpoint spec_entries (cs : list xml_node) : xml_error + list TranscriptEntry :=
  match cs with
  | [] => inr []
  | NElem nm attrs ccs :: cs' =>
      if String.eqb (local_name nm) "text" then
        match spec_entry attrs ccs with
        | inl e => inl e
        | inr en =>
            match spec_entries cs' with
            | inl e => inl e
            | inr es => inr (en :: es)
            end
        end
      else spec_entries cs'
  | _ :: cs' => spec_entries cs'
  end.

Definition no_start (ts : list xml_token) : Prop :=
  Forall (fun t => match t with TStart _ _ => False | _ => True end) ts.

(** Scenario E's document, and the same inside a [<transcript>] root. *)
Definition scenario_E_doc : string :=
  concat_str ["<text start="; quoted "1.0"; " dur="; quoted "2.5";
              ">Hello &amp;<b>World</b></text>"].

Definition scenario_E_wrapped : string :=
  concat_str ["<transcript>"; scenario_E_doc; "</transcript>"].

(** A transcript with a declaration, escaped markup in a [text]
    element, a child that is not [text], and a [text] element without
    attributes and with a nested element. *)
Definition sample_transcript : string :=
  concat_str ["<?xml version="; quoted "1.0"; "?>"; String newline EmptyString;
              "<transcript><text start="; quoted " 1.5"; " dur="; quoted "2";
              ">Hi &lt;i&gt;there&lt;/i&gt;</text><p>z</p><text>x<b>y</b>w</text></transcript>"].

Definition sample_prolog : list xml_token :=
  [TProcInst "xml" (concat_str ["version="; quoted "1.0"]); TChar (String newline EmptyString)].

Definition sample_children : list xml_node :=
  [NElem "text" [("start", " 1.5"); ("dur", "2")] [NChars "Hi <i>there</i>"];
   NElem "p" [] [NChars "z"];
   NElem "text" [] [NChars "x"; NElem "b" [] [NChars "y"]; NChars "w"]].

(* ------------------------------------------------------------------ *)
(** ** The network layer ([ListTranscripts], [fetchVideoHTML], [Fetch])

    [http.Get(url)] followed by [io.ReadAll(resp.Body)] is the client
    [get]: the body read from [url], or the error of either call, of type
    [E].  The status code is not looked at, so any body read is used. *)

Section Network.
Context {E : Type}.
Variable get : string -> E + string.

(** [fmt.Sprintf(watchURL, videoID)] with [watchURL] the constant
    ["https://www.youtube.com/watch?v=%s"]: [%s] of a string is the
    string itself. *)
Definition watch_url (videoID : string) : string :=
  String.append "https://www.youtube.com/watch?v=" videoID.

Definition fetchVideoHTML (videoID : string) : E + string :=
  match get (watch_url videoID) with
  | inl err => inl err
  | inr body => inr body
  end.

(** [ListTranscripts]: an error of the client, or the result of the
    package's own steps. *)
Definition ListTranscripts (videoID : string) : E + result TranscriptList :=
  match fetchVideoHTML videoID with
  | inl err => inl err
  | inr html =>
      inr (match extractCaptionsJSON html videoID with
           | Err err => Err err
           | Ok captionsJSON => buildTranscriptList videoID captionsJSON
           end)
  end.

(** The [Fetch] method of [*Transcript]. *)
Definition Fetch (t : Transcript) : E + result (list TranscriptEntry) :=
  match get (URL t) with
  | inl err => inl err
  | inr body => inr (parseTranscript body)
  end.

End Network.

(** The track [FindTranscript] picks in a catalog built from [tracks]:
    for the first code with a track, the last human-authored track with
    that code, or else the last generated one. *)
Fixpoint track_for_codes (videoID : string) (tracks : list json) (codes : list string)
    : option json :=
  match codes with
  | [] => None
  | k :: ks =>
      match last_track videoID false k tracks with
      | Some t => Some t
      | None =>
          match last_track videoID true k tracks with
          | Some t => Some t
          | None => track_for_codes videoID tracks ks
          end
      end
  end.

(* ================================================================== *)
(** A watch page whose caption configuration lists one generated English
    track. *)
Definition sample_watch_page : string :=
  concat_str ["<html>"; captions_marker; "{"; quoted "playerCaptionsTracklistRenderer";
              ":{"; quoted "captionTracks"; ":[{"; quoted "languageCode"; ":"; quoted "en";
              ","; quoted "kind"; ":"; quoted "asr"; ","; quoted "baseUrl"; ":";
              quoted "https://www.youtube.com/api/timedtext?v=vid&lang=en"; "}]}}";
              videoDetails_marker; ":{}}"].

(** A caption track of the sample transcript. *)
Definition sample_track : Transcript :=
  mkTranscript "vid" "https://www.youtube.com/api/timedtext?v=vid&lang=en" "English" "en" false.

(** * Properties *)

Example ExtractVideoID_watch :
  ExtractVideoID "https://www.youtube.com/watch?v=dQw4w9WgXcQ" = Ok "dQw4w9WgXcQ".
Proof. vm_compute. reflexivity. Qed.

Example ExtractVideoID_plain_youtu :
  ExtractVideoID "youtube12345" = Ok "youtube1234".
Proof. vm_compute. reflexivity. Qed.

Example ExtractVideoID_short_reserved :
  ExtractVideoID "a?b" = Err ErrInvalidCharactersInVideoID.
Proof. vm_compute. reflexivity. Qed.

Lemma append_nil_l s : String.append "" s = s.
Proof. reflexivity. Qed.

Lemma append_cons c s t : String.append (String c s) t = String c (String.append s t).
Proof. reflexivity. Qed.

Lemma has_char_cons d r c : has_char (String d r) c <-> c = d \/ has_char r c.
Proof.
  split.
  - intros [[|i] Hi]; simpl in Hi.
    + left. congruence.
    + right. exists i. exact Hi.
  - intros [-> | [i Hi]].
    + exists 0. reflexivity.
    + exists (S i). exact Hi.
Qed.

Lemma has_char_empty c : ~ has_char EmptyString c.
Proof. intros [[|i] Hi]; discriminate. Qed.

Lemma elem_byte_spec c chars : elem_byte c chars = true <-> has_char chars c.
Proof.
  induction chars as [|d chars IH]; simpl.
  - split; [discriminate | intros H; destruct (has_char_empty _ H)].
  - rewrite has_char_cons, Bool.orb_true_iff, IH, Ascii.eqb_eq. tauto.
Qed.

Lemma ContainsAny_spec s chars :
  ContainsAny s chars = true <-> exists c, has_char s c /\ has_char chars c.
Proof.
  induction s as [|d s IH]; simpl.
  - split; [discriminate | intros (c & Hc & _); destruct (has_char_empty _ Hc)].
  - rewrite Bool.orb_true_iff, IH, elem_byte_spec. split.
    + intros [H | (c & H1 & H2)].
      * exists d. split; [apply has_char_cons; auto | exact H].
      * exists c. split; [apply has_char_cons; auto | exact H2].
    + intros (c & H1 & H2). apply has_char_cons in H1 as [-> | H1]; eauto.
Qed.

Lemma has_reserved_ContainsAny s :
  has_reserved s <-> ContainsAny s reserved_chars = true.
Proof. rewrite ContainsAny_spec. reflexivity. Qed.

Lemma HasPrefix_spec s p :
  HasPrefix s p = true <-> exists post, s = String.append p post.
Proof.
  revert s. induction p as [|c p IH]; intros s; simpl.
  - split; [intros _; exists s; reflexivity | intros _; destruct s; reflexivity].
  - destruct s as [|d s].
    + split; [discriminate | intros [post H]; discriminate].
    + simpl. rewrite Bool.andb_true_iff, IH, Ascii.eqb_eq. split.
      * intros [-> [post ->]]. eauto.
      * intros [post H]. injection H as -> ->. eauto.
Qed.

Lemma HasPrefix_app p post : HasPrefix (String.append p post) p = true.
Proof. apply HasPrefix_spec. eauto. Qed.

Lemma Index_eq s sep :
  Index s sep =
  if HasPrefix s sep then Some 0
  else match s with
       | EmptyString => None
       | String _ s' => option_map S (Index s' sep)
       end.
Proof. destruct s; reflexivity. Qed.

Lemma Index_none s sep :
  Index s sep = None -> ~ occurs sep s.
Proof.
  induction s as [|d s IH]; intros H [pre [post Hs]]; rewrite Index_eq in H.
  - destruct (HasPrefix "" sep) eqn:E; [discriminate H|].
    destruct pre as [|c pre]; [|discriminate Hs]. rewrite append_nil_l in Hs.
    pose proof (HasPrefix_app sep post) as E'. rewrite <- Hs in E'. congruence.
  - destruct (HasPrefix (String d s) sep) eqn:E; [discriminate H|].
    destruct (Index s sep) eqn:E2; simpl in H; [discriminate H|].
    destruct pre as [|c pre]; rewrite ?append_nil_l, ?append_cons in Hs.
    + rewrite Hs, HasPrefix_app in E. discriminate E.
    + injection Hs as -> Hs. apply (IH eq_refl). exists pre, post. exact Hs.
Qed.

Lemma Index_some_occurs s sep i :
  Index s sep = Some i -> occurs sep s.
Proof.
  revert i. induction s as [|d s IH]; intros i H; rewrite Index_eq in H.
  - destruct (HasPrefix "" sep) eqn:E; [|discriminate].
    apply HasPrefix_spec in E as [post E]. exists "", post. exact E.
  - destruct (HasPrefix (String d s) sep) eqn:E.
    + apply HasPrefix_spec in E as [post E]. exists "", post. exact E.
    + destruct (Index s sep) as [j|] eqn:E2; [|discriminate].
      destruct (IH j eq_refl) as [pre [post Hs]].
      exists (String d pre), post. rewrite append_cons, Hs. reflexivity.
Qed.

Lemma Contains_spec s p : Contains s p = true <-> occurs p s.
Proof.
  unfold Contains. destruct (Index s p) as [i|] eqn:E.
  - split; [intros _; eapply Index_some_occurs; eauto | reflexivity].
  - split; [discriminate | intros H; destruct (Index_none _ _ E H)].
Qed.

Lemma has_char_elem_byte s c : has_char s c <-> elem_byte c s = true.
Proof. symmetry. apply elem_byte_spec. Qed.

Lemma extract_candidate_plain s :
  ~ has_reserved s -> ~ has_char s dquote -> ~ occurs "youtu" s ->
  extract_candidate s = s.
Proof.
  intros Hr Hq Hy. unfold extract_candidate.
  destruct (Contains s "youtu") eqn:E1.
  { apply Contains_spec in E1. contradiction. }
  destruct (ContainsAny s (String dquote "?&/<%=")) eqn:E2; [|reflexivity].
  apply ContainsAny_spec in E2 as (c & Hs & Hc).
  apply has_char_cons in Hc as [-> | Hc]; [contradiction|].
  exfalso. apply Hr. exists c. split; assumption.
Qed.

(** C2 (Video-ID Resolver, validation step): once the candidate is fixed
    by the extraction step (or pass-through) [extract_candidate],
    [ExtractVideoID] fails with [ErrInvalidCharactersInVideoID] exactly when
    the candidate contains one of [?&/<%=]; failing that check, it fails
    with [ErrVideoIDMinLength] exactly when the candidate is shorter than 10
    bytes; otherwise it returns the candidate. *)
Theorem ExtractVideoID_validation (s : string) :
  (ExtractVideoID s = Err ErrInvalidCharactersInVideoID
     <-> has_reserved (extract_candidate s)) /\
  (ExtractVideoID s = Err ErrVideoIDMinLength
     <-> ~ has_reserved (extract_candidate s)
         /\ String.length (extract_candidate s) < 10) /\
  (forall v, ExtractVideoID s = Ok v
     <-> v = extract_candidate s /\ ~ has_reserved (extract_candidate s)
         /\ 10 <= String.length (extract_candidate s)).
Proof.
  unfold ExtractVideoID. cbv zeta.
  generalize (extract_candidate s) as c. intros c.
  setoid_rewrite has_reserved_ContainsAny. unfold reserved_chars.
  destruct (ContainsAny c "?&/<%=").
  - split; [split; auto|]. split.
    + split; [discriminate | intros [H _]; congruence].
    + intros v. split; [discriminate | intros (_ & H & _); congruence].
  - destruct (Nat.ltb_spec (String.length c) 10) as [Hl | Hl].
    + split; [split; [discriminate | discriminate]|]. split.
      * split; [auto | reflexivity].
      * intros v. split; [discriminate | intros (_ & _ & H); lia].
    + split; [split; [discriminate | discriminate]|]. split.
      * split; [discriminate | intros [_ H]; lia].
      * intros v. split.
        -- intros H. injection H as <-. auto.
        -- intros (-> & _). reflexivity.
Qed.

(** C7 fails as stated: ["youtube12345"] has 12 bytes and none of the
    reserved characters, but it contains ["youtu"], which sends it through
    the extraction patterns; the last one cuts out its first 11 bytes. *)
Lemma ExtractVideoID_plain_id_counterexample :
  11 <= String.length "youtube12345" /\ ~ has_reserved "youtube12345" /\
  ExtractVideoID "youtube12345" <> Ok "youtube12345".
Proof.
  split; [simpl; lia|]. split.
  - rewrite has_reserved_ContainsAny. vm_compute. discriminate.
  - vm_compute. discriminate.
Qed.

(** C7 (amended): an input of 11 or more bytes that contains none of the
    reserved characters [?&/<%=], no double quote and no substring
    ["youtu"] skips the extraction step and is returned unchanged. *)
Theorem ExtractVideoID_plain_id (s : string) :
  11 <= String.length s -> ~ has_reserved s -> ~ has_char s dquote ->
  ~ occurs "youtu" s ->
  ExtractVideoID s = Ok s.
Proof.
  intros Hl Hr Hq Hy.
  pose proof (extract_candidate_plain s Hr Hq Hy) as Hc.
  destruct (ExtractVideoID_validation s) as (_ & _ & H).
  apply H. rewrite Hc. split; [reflexivity | split; [exact Hr | lia]].
Qed.

Lemma ExtractVideoID_plain_id_witness :
  11 <= String.length "dQw4w9WgXcQ" /\ ~ has_reserved "dQw4w9WgXcQ" /\
  ~ has_char "dQw4w9WgXcQ" dquote /\ ~ occurs "youtu" "dQw4w9WgXcQ" /\
  ExtractVideoID "dQw4w9WgXcQ" = Ok "dQw4w9WgXcQ".
Proof.
  assert (Hl : 11 <= String.length "dQw4w9WgXcQ") by (simpl; lia).
  assert (Hr : ~ has_reserved "dQw4w9WgXcQ")
    by (rewrite has_reserved_ContainsAny; vm_compute; discriminate).
  assert (Hq : ~ has_char "dQw4w9WgXcQ" dquote)
    by (rewrite has_char_elem_byte; vm_compute; discriminate).
  assert (Hy : ~ occurs "youtu" "dQw4w9WgXcQ")
    by (rewrite <- Contains_spec; vm_compute; discriminate).
  split; [exact Hl|]. split; [exact Hr|]. split; [exact Hq|]. split; [exact Hy|].
  exact (ExtractVideoID_plain_id "dQw4w9WgXcQ" Hl Hr Hq Hy).
Defined.

(* ------------------------------------------------------------------ *)
(** ** Catalog builder and track selector *)

Lemma find_app_last {A} (f : A -> bool) (l : list A) (x : A) :
  find f (l ++ [x]) = match find f l with Some y => Some y | None => if f x then Some x else None end.
Proof.
  induction l as [|y l IH]; simpl; [reflexivity|].
  destruct (f y); [reflexivity | exact IH].
Qed.

Lemma find_app_none {A} (f : A -> bool) (l1 l2 : list A) :
  find f l1 = None -> find f (l1 ++ l2) = find f l2.
Proof.
  induction l1 as [|y l1 IH]; simpl; [reflexivity|].
  destruct (f y); [discriminate | exact IH].
Qed.

Lemma find_app_some {A} (f : A -> bool) (l1 l2 : list A) y :
  find f l1 = Some y -> find f (l1 ++ l2) = Some y.
Proof.
  induction l1 as [|z l1 IH]; simpl; [discriminate|].
  destruct (f z); [exact id | exact IH].
Qed.

Lemma read_track_views vid t :
  read_track vid t = (track_code vid t, snd (fst (read_track vid t)), track_descriptor vid t).
Proof. unfold track_code, track_descriptor. destruct (read_track vid t) as [[a b] c]. reflexivity. Qed.

Lemma last_track_cons vid asr k t ts :
  last_track vid asr k (t :: ts) =
  match last_track vid asr k ts with
  | Some y => Some y
  | None =>
      if Bool.eqb (track_is_asr vid t) asr && String.eqb (track_code vid t) k
      then Some t else None
  end.
Proof. unfold last_track. simpl rev. rewrite find_app_last. reflexivity. Qed.

(** The loop of [buildTranscriptList], key by key: the entry of a class at
    [k] is the descriptor of the last track of that class with code [k],
    or the initial entry when there is none. *)
Lemma fill_maps_lookup (vid : string) (ts : list json) (m g : gmap string Transcript) :
  (forall k, fst (fill_maps vid ts m g) !! k =
     match last_track vid false k ts with
     | Some t => Some (track_descriptor vid t) | None => m !! k end) /\
  (forall k, snd (fill_maps vid ts m g) !! k =
     match last_track vid true k ts with
     | Some t => Some (track_descriptor vid t) | None => g !! k end).
Proof.
  revert m g. induction ts as [|t ts IH]; intros m g.
  - split; intros k; reflexivity.
  - cbn [fill_maps]. rewrite (read_track_views vid t). cbv beta iota.
    change (String.eqb (snd (fst (read_track vid t))) "asr") with (track_is_asr vid t).
    destruct (track_is_asr vid t) eqn:Ek.
    + destruct (IH m (<[track_code vid t := track_descriptor vid t]> g)) as [IH1 IH2].
      split; intros k; rewrite last_track_cons, Ek; simpl Bool.eqb; simpl andb.
      * rewrite IH1. destruct (last_track vid false k ts); reflexivity.
      * rewrite IH2. destruct (last_track vid true k ts); [reflexivity|].
        destruct (String.eqb_spec (track_code vid t) k) as [<- | Hne].
        -- by rewrite lookup_insert_eq.
        -- by rewrite lookup_insert_ne.
    + destruct (IH (<[track_code vid t := track_descriptor vid t]> m) g) as [IH1 IH2].
      split; intros k; rewrite last_track_cons, Ek; simpl Bool.eqb; simpl andb.
      * rewrite IH1. destruct (last_track vid false k ts); [reflexivity|].
        destruct (String.eqb_spec (track_code vid t) k) as [<- | Hne].
        -- by rewrite lookup_insert_eq.
        -- by rewrite lookup_insert_ne.
      * rewrite IH2. destruct (last_track vid true k ts); reflexivity.
Qed.

Lemma buildTranscriptList_ok (vid : string) (cj : list (string * json)) (tracks : list json) :
  map_index "captionTracks" cj = Some (JArray tracks) ->
  buildTranscriptList vid cj =
  Ok {| ListVideoID := vid;
        ManuallyCreatedTranscripts := fst (fill_maps vid tracks ∅ ∅);
        GeneratedTranscripts := snd (fill_maps vid tracks ∅ ∅) |}.
Proof.
  intros H. unfold buildTranscriptList. rewrite H. simpl.
  destruct (fill_maps vid tracks ∅ ∅). reflexivity.
Qed.

Lemma build_lookup (vid : string) (cj : list (string * json)) (tracks : list json)
    (tl : TranscriptList) :
  map_index "captionTracks" cj = Some (JArray tracks) ->
  buildTranscriptList vid cj = Ok tl ->
  forall asr k, class_map asr tl !! k =
    option_map (track_descriptor vid) (last_track vid asr k tracks).
Proof.
  intros H1 H2 asr k. rewrite (buildTranscriptList_ok vid cj tracks H1) in H2.
  injection H2 as <-. destruct (fill_maps_lookup vid tracks ∅ ∅) as [L1 L2].
  destruct asr; simpl; [rewrite L2 | rewrite L1];
    destruct (last_track _ _ k tracks); reflexivity.
Qed.

Lemma buildTranscriptList_result (vid : string) (cj : list (string * json)) :
  match as_slice (map_index "captionTracks" cj) with
  | None => buildTranscriptList vid cj = Err ErrInvalidFormat
  | Some tracks => exists tl, buildTranscriptList vid cj = Ok tl
  end.
Proof.
  unfold buildTranscriptList. destruct (as_slice (map_index "captionTracks" cj)); [|reflexivity].
  destruct (fill_maps vid l ∅ ∅). eauto.
Qed.

Lemma as_slice_some v tracks : as_slice v = Some tracks -> v = Some (JArray tracks).
Proof. destruct v as [[]|]; simpl; congruence. Qed.

Lemma last_track_some vid asr k tracks t :
  last_track vid asr k tracks = Some t ->
  In t tracks /\ track_is_asr vid t = asr /\ track_code vid t = k.
Proof.
  unfold last_track. intros H. apply find_some in H as [H1 H2].
  apply andb_true_iff in H2 as [H2 H3].
  apply Bool.eqb_prop in H2. apply String.eqb_eq in H3.
  split; [apply in_rev; exact H1 | auto].
Qed.

Lemma last_track_in vid tracks t :
  In t tracks ->
  is_Some (last_track vid (track_is_asr vid t) (track_code vid t) tracks).
Proof.
  intros Hin. unfold last_track.
  destruct (find _ (rev tracks)) eqn:E; [eauto|].
  exfalso. eapply find_none in E; [|apply in_rev; rewrite rev_involutive; exact Hin].
  simpl in E. rewrite Bool.eqb_reflx, String.eqb_refl in E. discriminate.
Qed.

Lemma track_descriptor_fields vid t :
  VideoID (track_descriptor vid t) = vid /\
  IsGenerated (track_descriptor vid t) = track_is_asr vid t /\
  LanguageCode (track_descriptor vid t) = track_code vid t.
Proof. repeat split. Qed.

Lemma track_is_asr_spec vid t :
  track_is_asr vid t = true <->
  exists kvs, t = JObject kvs /\ map_index "kind" kvs = Some (JString "asr").
Proof.
  unfold track_is_asr, read_track. destruct t as [| | | | |kvs]; simpl;
    try (split; [discriminate | intros (kvs & H & _); discriminate]).
  destruct (map_index "kind" kvs) as [[| | |s| |]|] eqn:E; simpl;
    try (split; [discriminate | intros (kvs' & H & H'); injection H as <-; congruence]).
  rewrite String.eqb_eq. split.
  - intros ->. eauto.
  - intros (kvs' & H & H'). injection H as <-. congruence.
Qed.

(** C3 (Track Selector): [FindTranscript] returns [t] exactly when some
    code of the sequence is the first one present in either mapping and [t]
    is its human-authored descriptor, or its generated one when it has no
    human-authored one; it fails, and then only with
    [ErrNoTranscriptFound], exactly when no code is a key of either
    mapping; on a catalog with two empty mappings it fails with
    [ErrNoTranscriptFound] for every language list. *)
Theorem FindTranscript_first_probe (tl : TranscriptList) (codes : list string) :
  (forall t, FindTranscript tl codes = Ok t <->
     exists pre code post, codes = pre ++ code :: post /\
       (forall c, In c pre -> ManuallyCreatedTranscripts tl !! c = None /\
                              GeneratedTranscripts tl !! c = None) /\
       (ManuallyCreatedTranscripts tl !! code = Some t \/
        (ManuallyCreatedTranscripts tl !! code = None /\
         GeneratedTranscripts tl !! code = Some t))) /\
  (FindTranscript tl codes = Err ErrNoTranscriptFound <->
     forall c, In c codes -> ManuallyCreatedTranscripts tl !! c = None /\
                            GeneratedTranscripts tl !! c = None) /\
  (forall e, FindTranscript tl codes = Err e -> e = ErrNoTranscriptFound) /\
  (ManuallyCreatedTranscripts tl = ∅ -> GeneratedTranscripts tl = ∅ ->
     FindTranscript tl codes = Err ErrNoTranscriptFound).
Proof.
  induction codes as [|code codes IH]; simpl.
  - split; [|split; [|split]].
    + intros t. split; [discriminate|].
      intros (pre & code & post & H & _). destruct pre; discriminate.
    + split; [intros _ c [] | reflexivity].
    + intros e H. congruence.
    + reflexivity.
  - destruct IH as (IH1 & IH2 & IH3 & IH4).
    destruct (ManuallyCreatedTranscripts tl !! code) as [t0|] eqn:Em.
    + split; [|split; [|split]].
      * intros t. split.
        -- intros H. injection H as <-. exists [], code, codes.
           split; [reflexivity | split; [intros ? [] | left; exact Em]].
        -- intros (pre & c & post & Hc & Hpre & Ht). destruct pre as [|c' pre].
           ++ injection Hc as -> ->. destruct Ht as [Ht | [Ht _]]; congruence.
           ++ injection Hc as -> _. destruct (Hpre c' (or_introl eq_refl)). congruence.
      * split; [discriminate|]. intros H. destruct (H code (or_introl eq_refl)). congruence.
      * intros e H. discriminate.
      * intros Hm _. rewrite Hm, lookup_empty in Em. discriminate.
    + destruct (GeneratedTranscripts tl !! code) as [t0|] eqn:Eg.
      * split; [|split; [|split]].
        -- intros t. split.
           ++ intros H. injection H as <-. exists [], code, codes.
              split; [reflexivity | split; [intros ? [] | right; split; assumption]].
           ++ intros (pre & c & post & Hc & Hpre & Ht). destruct pre as [|c' pre].
              ** injection Hc as -> ->. destruct Ht as [Ht | [_ Ht]]; congruence.
              ** injection Hc as -> _. destruct (Hpre c' (or_introl eq_refl)). congruence.
        -- split; [discriminate|]. intros H. destruct (H code (or_introl eq_refl)). congruence.
        -- intros e H. discriminate.
        -- intros _ Hg. rewrite Hg, lookup_empty in Eg. discriminate.
      * split; [|split; [|split]].
        -- intros t. rewrite IH1. split.
           ++ intros (pre & c & post & Hc & Hpre & Ht).
              exists (code :: pre), c, post. rewrite Hc. split; [reflexivity|].
              split; [|exact Ht]. intros c' [<- | Hin]; [auto | apply Hpre, Hin].
           ++ intros (pre & c & post & Hc & Hpre & Ht). destruct pre as [|c' pre].
              ** injection Hc as -> ->. destruct Ht as [Ht | [_ Ht]]; congruence.
              ** injection Hc as <- Hc. exists pre, c, post.
                 split; [exact Hc|]. split; [|exact Ht].
                 intros c'' Hin. apply Hpre. right. exact Hin.
        -- rewrite IH2. split.
           ++ intros H c [<- | Hin]; [auto | apply H, Hin].
           ++ intros H c Hin. apply H. right. exact Hin.
        -- exact IH3.
        -- exact IH4.
Qed.

(** C4 (Catalog Builder, classification): for a configuration whose
    [captionTracks] is a sequence, the build succeeds; every track whose
    kind is the string ["asr"] is present, under its language code, in the
    generated mapping, every other track (no kind, another kind, or not an
    object at all) in the human-authored one; every entry of the generated
    (human-authored) mapping is the descriptor of an ["asr"] (other) track
    of the sequence, stored under that track's language code.  Scenario B:
    one ["asr"] track ["en"] gives an empty human-authored mapping and a
    generated mapping with the single key ["en"]. *)
Theorem buildTranscriptList_classification :
  (forall (vid : string) (cj : list (string * json)) (tracks : list json),
    map_index "captionTracks" cj = Some (JArray tracks) ->
    exists tl, buildTranscriptList vid cj = Ok tl /\
      (forall t, In t tracks -> track_is_asr vid t = true ->
         is_Some (GeneratedTranscripts tl !! track_code vid t)) /\
      (forall t, In t tracks -> track_is_asr vid t = false ->
         is_Some (ManuallyCreatedTranscripts tl !! track_code vid t)) /\
      (forall k d, GeneratedTranscripts tl !! k = Some d ->
         exists t, In t tracks /\ track_is_asr vid t = true /\
                   track_code vid t = k /\ d = track_descriptor vid t) /\
      (forall k d, ManuallyCreatedTranscripts tl !! k = Some d ->
         exists t, In t tracks /\ track_is_asr vid t = false /\
                   track_code vid t = k /\ d = track_descriptor vid t)) /\
  (forall (vid : string) (t : json), track_is_asr vid t = true <->
     exists kvs, t = JObject kvs /\ map_index "kind" kvs = Some (JString "asr")) /\
  (forall vid : string, exists tl, buildTranscriptList vid scenario_B_captions = Ok tl /\
     ManuallyCreatedTranscripts tl = ∅ /\
     (forall k, is_Some (GeneratedTranscripts tl !! k) <-> k = "en")).
Proof.
  split; [|split].
  - intros vid cj tracks H.
    eexists. split; [apply (buildTranscriptList_ok vid cj tracks H)|].
    set (tl := {| ListVideoID := vid; ManuallyCreatedTranscripts := _;
                  GeneratedTranscripts := _ |}).
    assert (HL : forall asr k, class_map asr tl !! k =
              option_map (track_descriptor vid) (last_track vid asr k tracks))
      by (apply (build_lookup vid cj tracks tl H), buildTranscriptList_ok, H).
    split; [|split; [|split]].
    + intros t Hin Ha. pose proof (HL true (track_code vid t)) as E.
      change (class_map true tl) with (GeneratedTranscripts tl) in E.
      rewrite E. rewrite <- Ha. destruct (last_track_in vid tracks t Hin) as [y ->].
      eexists. reflexivity.
    + intros t Hin Ha. pose proof (HL false (track_code vid t)) as E.
      change (class_map false tl) with (ManuallyCreatedTranscripts tl) in E.
      rewrite E. rewrite <- Ha. destruct (last_track_in vid tracks t Hin) as [y ->].
      eexists. reflexivity.
    + intros k d Hd. pose proof (HL true k) as E.
      change (class_map true tl) with (GeneratedTranscripts tl) in E. rewrite Hd in E.
      destruct (last_track vid true k tracks) as [t|] eqn:Et; [|discriminate].
      injection E as ->. apply last_track_some in Et as (? & ? & ?). eauto.
    + intros k d Hd. pose proof (HL false k) as E.
      change (class_map false tl) with (ManuallyCreatedTranscripts tl) in E. rewrite Hd in E.
      destruct (last_track vid false k tracks) as [t|] eqn:Et; [|discriminate].
      injection E as ->. apply last_track_some in Et as (? & ? & ?). eauto.
  - exact track_is_asr_spec.
  - intros vid. eexists. split; [reflexivity|]. split; [reflexivity|].
    intros k. simpl. destruct (String.eqb_spec k "en") as [-> | Hne].
    + split; [reflexivity | intros _; eexists; reflexivity].
    + rewrite lookup_insert_ne by congruence. rewrite lookup_empty.
      split; [intros [? H]; discriminate | intros; congruence].
Qed.

Lemma buildTranscriptList_classification_witness :
  map_index "captionTracks" scenario_B_captions = Some (JArray [scenario_B_track]) /\
  exists tl, buildTranscriptList "dQw4w9WgXcQ" scenario_B_captions = Ok tl /\
    is_Some (GeneratedTranscripts tl !! "en").
Proof.
  split; [reflexivity|].
  destruct (proj1 buildTranscriptList_classification "dQw4w9WgXcQ"
              scenario_B_captions [scenario_B_track] eq_refl)
    as (tl & Htl & Hgen & _).
  exists tl. split; [exact Htl|].
  apply (Hgen scenario_B_track); [left; reflexivity | reflexivity].
Defined.

(** C8 fails as stated: corrupting the language code of the second track
    ["fr"] into ["en"] replaces the entry of the first track ["en"] in the
    human-authored mapping (last writer wins on a shared key). *)
Lemma buildTranscriptList_per_track_counterexample :
  catalog_lookup false "en"
    (buildTranscriptList "vid" [("captionTracks", JArray [track_en; track_fr])])
  = Some (track_descriptor "vid" track_en) /\
  catalog_lookup false "en"
    (buildTranscriptList "vid" [("captionTracks", JArray [track_en; track_fr_corrupted])])
  <> Some (track_descriptor "vid" track_en).
Proof.
  split.
  - vm_compute. reflexivity.
  - vm_compute. intros H. injection H. discriminate.
Qed.

(** What [read_track] reads for a track with a missing or mistyped field. *)
Lemma track_descriptor_degrade (vid : string) (t : json) :
  let fields := match t with JObject kvs => kvs | _ => [] end in
  (as_string (map_index "languageCode" fields) = None ->
     track_code vid t = "" /\ LanguageCode (track_descriptor vid t) = "") /\
  (as_string (map_index "baseUrl" fields) = None ->
     URL (track_descriptor vid t) = "") /\
  (as_string (map_index "simpleText"
     (match map_index "name" fields with Some (JObject n) => n | _ => [] end)) = None ->
     Language (track_descriptor vid t) = "") /\
  (as_string (map_index "kind" fields) = None ->
     track_is_asr vid t = false /\ IsGenerated (track_descriptor vid t) = false).
Proof.
  intros fields. subst fields.
  unfold track_code, track_is_asr, track_descriptor, read_track.
  destruct t as [| | | | |kvs]; cbn zeta;
    (split; [|split; [|split]]); intros H; try (split; reflexivity); try reflexivity;
    cbn [map_or_nil as_map fst snd VideoID URL Language LanguageCode IsGenerated];
    rewrite ?H; try (split; reflexivity); try reflexivity.
  destruct (map_index "name" kvs) as [[| | | | |n]|]; cbn [map_or_nil as_map];
    rewrite ?H; reflexivity.
Qed.

Lemma find_all_false {A} (f : A -> bool) (l : list A) :
  (forall u, In u l -> f u = false) -> find f l = None.
Proof.
  induction l as [|y l IH]; intros H; [reflexivity|].
  cbn [find]. rewrite (H y (or_introl eq_refl)). apply IH. intros u Hu. apply H. right. exact Hu.
Qed.

Lemma track_key_neq vid asr k u :
  (track_is_asr vid u, track_code vid u) <> (asr, k) ->
  (Bool.eqb (track_is_asr vid u) asr && String.eqb (track_code vid u) k) = false.
Proof.
  intros Hu. destruct (Bool.eqb_spec (track_is_asr vid u) asr) as [Ha|]; [|reflexivity].
  destruct (String.eqb_spec (track_code vid u) k) as [Hk|]; [|reflexivity].
  exfalso. apply Hu. rewrite Ha, Hk. reflexivity.
Qed.

(** C8 (amended): [buildTranscriptList] fails exactly when [captionTracks]
    is absent or not a sequence, and then with [ErrInvalidFormat] only.
    Every track of the sequence, whatever fields it lacks, gets an entry
    in the mapping of its class under its language code; when no later
    track of the same mapping has that code, the entry is the track's own
    descriptor, in which a missing or mistyped language code, URL,
    [name.simpleText] or kind is the empty string (an empty kind puts it
    in the human-authored mapping).  Changing one track entry leaves the
    entry of every (mapping, key) pair other than the changed track's old
    and new ones as it was. *)
Theorem buildTranscriptList_per_track :
  (forall (vid : string) (cj : list (string * json)),
     buildTranscriptList vid cj = Err ErrInvalidFormat <->
     as_slice (map_index "captionTracks" cj) = None) /\
  (forall (vid : string) (cj : list (string * json)) (e : goerror),
     buildTranscriptList vid cj = Err e -> e = ErrInvalidFormat) /\
  (forall (vid : string) (cj : list (string * json)) (l1 l2 : list json) (t : json),
     map_index "captionTracks" cj = Some (JArray (l1 ++ t :: l2)) ->
     let fields := match t with JObject kvs => kvs | _ => [] end in
     exists tl, buildTranscriptList vid cj = Ok tl /\
       is_Some (class_map (track_is_asr vid t) tl !! track_code vid t) /\
       ((forall u, In u l2 ->
           (track_is_asr vid u, track_code vid u) <> (track_is_asr vid t, track_code vid t)) ->
        exists d, class_map (track_is_asr vid t) tl !! track_code vid t = Some d /\
          d = track_descriptor vid t /\
          (as_string (map_index "languageCode" fields) = None ->
             track_code vid t = "" /\ LanguageCode d = "") /\
          (as_string (map_index "baseUrl" fields) = None -> URL d = "") /\
          (as_string (map_index "simpleText"
             (match map_index "name" fields with Some (JObject n) => n | _ => [] end)) = None ->
             Language d = "") /\
          (as_string (map_index "kind" fields) = None ->
             IsGenerated d = false /\ ManuallyCreatedTranscripts tl !! track_code vid t = Some d))) /\
  (forall (vid : string) (cj cj' : list (string * json)) (l1 l2 : list json)
          (t t' : json) (tl tl' : TranscriptList) (asr : bool) (k : string),
     map_index "captionTracks" cj = Some (JArray (l1 ++ t :: l2)) ->
     map_index "captionTracks" cj' = Some (JArray (l1 ++ t' :: l2)) ->
     buildTranscriptList vid cj = Ok tl ->
     buildTranscriptList vid cj' = Ok tl' ->
     (track_is_asr vid t, track_code vid t) <> (asr, k) ->
     (track_is_asr vid t', track_code vid t') <> (asr, k) ->
     class_map asr tl !! k = class_map asr tl' !! k).
Proof.
  split; [|split; [|split]].
  - intros vid cj. pose proof (buildTranscriptList_result vid cj) as H.
    destruct (as_slice (map_index "captionTracks" cj)).
    + destruct H as [tl ->]. split; discriminate.
    + rewrite H. split; reflexivity.
  - intros vid cj e. pose proof (buildTranscriptList_result vid cj) as H.
    destruct (as_slice (map_index "captionTracks" cj)).
    + destruct H as [tl ->]. discriminate.
    + rewrite H. congruence.
  - intros vid cj l1 l2 t Hc fields.
    pose proof (buildTranscriptList_ok vid cj _ Hc) as B.
    eexists. split; [exact B|].
    pose proof (build_lookup vid cj _ _ Hc B) as HL.
    split.
    + rewrite HL. destruct (last_track_in vid (l1 ++ t :: l2) t) as [y ->];
        [apply in_or_app; right; left; reflexivity|].
      eexists. reflexivity.
    + intros Hl2. exists (track_descriptor vid t).
      assert (Hs : class_map (track_is_asr vid t) {| ListVideoID := vid;
                     ManuallyCreatedTranscripts := fst (fill_maps vid (l1 ++ t :: l2) ∅ ∅);
                     GeneratedTranscripts := snd (fill_maps vid (l1 ++ t :: l2) ∅ ∅) |}
                   !! track_code vid t = Some (track_descriptor vid t)).
      { rewrite HL. unfold last_track. rewrite rev_app_distr. cbn [rev].
        rewrite <- app_assoc. cbn [app].
        rewrite find_app_none.
        2:{ apply find_all_false. intros u Hu. apply track_key_neq.
            apply Hl2. apply in_rev. exact Hu. }
        cbn [find]. rewrite Bool.eqb_reflx, String.eqb_refl. reflexivity. }
      destruct (track_descriptor_degrade vid t) as (F1 & F2 & F3 & F4).
      split; [exact Hs|]. split; [reflexivity|].
      split; [exact F1|]. split; [exact F2|]. split; [exact F3|].
      intros Hk. destruct (F4 Hk) as [Ha Hg]. split; [exact Hg|].
      rewrite Ha in Hs. exact Hs.
  - intros vid cj cj' l1 l2 t t' tl tl' asr k H1 H2 B1 B2 Ht Ht'.
    rewrite (build_lookup vid cj _ tl H1 B1), (build_lookup vid cj' _ tl' H2 B2).
    unfold last_track. rewrite !rev_app_distr. simpl rev.
    rewrite <- !app_assoc. simpl app.
    destruct (find (fun u => Bool.eqb (track_is_asr vid u) asr && String.eqb (track_code vid u) k)
                (rev l2)) as [y|] eqn:E.
    + rewrite !(find_app_some _ _ _ y E). reflexivity.
    + rewrite !(find_app_none _ _ _ E). simpl.
      rewrite (track_key_neq _ _ _ t Ht), (track_key_neq _ _ _ t' Ht'). reflexivity.
Qed.

Lemma buildTranscriptList_per_track_witness :
  (exists tl d,
     map_index "captionTracks" [("captionTracks", JArray ([track_en] ++ track_fr_nocode :: []))]
       = Some (JArray ([track_en] ++ track_fr_nocode :: [])) /\
     buildTranscriptList "vid" [("captionTracks", JArray [track_en; track_fr_nocode])] = Ok tl /\
     ManuallyCreatedTranscripts tl !! "" = Some d /\
     LanguageCode d = "" /\ Language d = "" /\ IsGenerated d = false /\ URL d = "https://b") /\
  (exists tl tl',
     buildTranscriptList "vid" [("captionTracks", JArray [track_en; track_fr])] = Ok tl /\
     buildTranscriptList "vid" [("captionTracks", JArray [track_en; track_fr_nocode])] = Ok tl' /\
     class_map false tl !! "en" = Some (track_descriptor "vid" track_en) /\
     class_map false tl !! "en" = class_map false tl' !! "en").
Proof.
  split.
  - assert (Hc : map_index "captionTracks" [("captionTracks", JArray ([track_en] ++ track_fr_nocode :: []))]
                 = Some (JArray ([track_en] ++ track_fr_nocode :: []))) by reflexivity.
    destruct (proj1 (proj2 (proj2 buildTranscriptList_per_track))
                "vid" _ [track_en] [] track_fr_nocode Hc) as (tl & B & _ & Hlast).
    destruct (Hlast (fun u (Hu : In u []) => match Hu with end))
      as (d & Hd & Hdd & F1 & F2 & F3 & F4).
    destruct (F4 eq_refl) as [Hg Hm].
    exists tl, d. split; [exact Hc|]. split; [exact B|].
    split; [exact Hm|]. split; [exact (proj2 (F1 eq_refl))|].
    split; [exact (F3 eq_refl)|]. split; [exact Hg|].
    rewrite Hdd. vm_compute. reflexivity.
  - destruct (buildTranscriptList_result "vid" [("captionTracks", JArray [track_en; track_fr])])
      as [tl Htl].
    destruct (buildTranscriptList_result "vid"
                [("captionTracks", JArray [track_en; track_fr_nocode])]) as [tl' Htl'].
    exists tl, tl'. split; [exact Htl|]. split; [exact Htl'|].
    split; [revert Htl; vm_compute; intros H; injection H as <-; reflexivity|].
    apply (proj2 (proj2 (proj2 buildTranscriptList_per_track))
             "vid" [("captionTracks", JArray [track_en; track_fr])]
             [("captionTracks", JArray [track_en; track_fr_nocode])]
             [track_en] [] track_fr track_fr_nocode tl tl' false "en"
             eq_refl eq_refl Htl Htl');
      vm_compute; discriminate.
Defined.

(** C10 (Catalog invariants): in a catalog built by [buildTranscriptList],
    every descriptor carries the catalog's video ID, descriptors of the
    generated mapping have [IsGenerated = true] and those of the
    human-authored mapping [IsGenerated = false], and each is stored under
    its own [LanguageCode]. *)
Theorem buildTranscriptList_invariants (vid : string) (cj : list (string * json))
    (tl : TranscriptList) :
  buildTranscriptList vid cj = Ok tl ->
  ListVideoID tl = vid /\
  (forall k d, GeneratedTranscripts tl !! k = Some d ->
     VideoID d = ListVideoID tl /\ IsGenerated d = true /\ LanguageCode d = k) /\
  (forall k d, ManuallyCreatedTranscripts tl !! k = Some d ->
     VideoID d = ListVideoID tl /\ IsGenerated d = false /\ LanguageCode d = k).
Proof.
  intros B. pose proof (buildTranscriptList_result vid cj) as R.
  destruct (as_slice (map_index "captionTracks" cj)) as [tracks|] eqn:Es;
    [|rewrite R in B; discriminate].
  apply as_slice_some in Es.
  pose proof (build_lookup vid cj tracks tl Es B) as HL.
  assert (Hv : ListVideoID tl = vid).
  { rewrite (buildTranscriptList_ok vid cj tracks Es) in B. injection B as <-. reflexivity. }
  assert (Hc : forall asr k d, class_map asr tl !! k = Some d ->
            VideoID d = ListVideoID tl /\ IsGenerated d = asr /\ LanguageCode d = k).
  { intros asr k d Hd. rewrite HL in Hd.
    destruct (last_track vid asr k tracks) as [t|] eqn:Et; [|discriminate].
    injection Hd as <-. apply last_track_some in Et as (_ & Ha & Hk).
    destruct (track_descriptor_fields vid t) as (F1 & F2 & F3).
    rewrite F1, F2, F3, Hv. auto. }
  split; [exact Hv|]. split.
  - intros k d. exact (Hc true k d).
  - intros k d. exact (Hc false k d).
Qed.

Lemma buildTranscriptList_invariants_witness :
  exists tl, buildTranscriptList "dQw4w9WgXcQ" scenario_B_captions = Ok tl /\
    ListVideoID tl = "dQw4w9WgXcQ".
Proof.
  destruct (buildTranscriptList_result "dQw4w9WgXcQ" scenario_B_captions) as [tl Htl].
  exists tl. split; [exact Htl|].
  exact (proj1 (buildTranscriptList_invariants _ _ tl Htl)).
Defined.

(* ------------------------------------------------------------------ *)
(** ** Tag stripping *)

Example removeHTMLTags_scenario_E :
  removeHTMLTags "Hello &amp;<b>World</b>" = "Hello &amp;World".
Proof. vm_compute. reflexivity. Qed.

Example removeHTMLTags_nested : removeHTMLTags "<<a>b>" = "b>".
Proof. vm_compute. reflexivity. Qed.

Example removeHTMLTags_unclosed : removeHTMLTags "a<b" = "a<b".
Proof. vm_compute. reflexivity. Qed.

Lemma find_tag_eq s :
  find_tag s =
  match tag_at s with
  | Some rest => Some (EmptyString, rest)
  | None =>
      match s with
      | EmptyString => None
      | String c s' =>
          match find_tag s' with
          | Some (pre, rest) => Some (String c pre, rest)
          | None => None
          end
      end
  end.
Proof. destruct s; reflexivity. Qed.

Lemma tag_end_some s rest :
  tag_end s = Some rest -> String.length rest < String.length s /\ has_char s ">"%char.
Proof.
  induction s as [|c s IH]; cbn [tag_end]; [discriminate|].
  rewrite has_char_cons. cbn [String.length].
  destruct (Ascii.eqb_spec c ">"%char) as [-> | Hne]; intros H.
  - injection H as <-. split; [lia | auto].
  - destruct (IH H) as [H1 H2]. split; [lia | auto].
Qed.

Lemma tag_end_none s : tag_end s = None -> ~ has_char s ">"%char.
Proof.
  induction s as [|c s IH]; cbn [tag_end]; [intros _; apply has_char_empty|].
  rewrite has_char_cons.
  destruct (Ascii.eqb_spec c ">"%char) as [-> | Hne]; intros H; [discriminate|].
  intros [Heq | Hc]; [congruence | exact (IH H Hc)].
Qed.

Lemma find_tag_gt s pre rest : find_tag s = Some (pre, rest) -> has_char s ">"%char.
Proof.
  revert pre rest. induction s as [|c s IH]; intros pre rest H;
    rewrite find_tag_eq in H; [discriminate|].
  apply has_char_cons. right.
  destruct (tag_at (String c s)) as [r|] eqn:Et.
  - unfold tag_at in Et. destruct (Ascii.eqb c "<"%char); [|discriminate].
    exact (proj2 (tag_end_some s r Et)).
  - destruct (find_tag s) as [[p r]|] eqn:E; [|discriminate]. exact (IH p r eq_refl).
Qed.

(** The leftmost match has no ['<'] before it and leaves a shorter input. *)
Lemma find_tag_spec s pre rest :
  find_tag s = Some (pre, rest) ->
  ~ has_char pre "<"%char /\ String.length rest < String.length s.
Proof.
  revert pre rest. induction s as [|c s IH]; intros pre rest H;
    rewrite find_tag_eq in H; [discriminate|].
  destruct (tag_at (String c s)) as [r|] eqn:Et.
  - injection H as <- <-. split; [apply has_char_empty|].
    unfold tag_at in Et. destruct (Ascii.eqb c "<"%char); [|discriminate].
    destruct (tag_end_some s r Et) as [Hl _]. simpl. lia.
  - destruct (find_tag s) as [[p r]|] eqn:E; [|discriminate].
    injection H as <- <-. destruct (IH p r eq_refl) as [Hp Hl].
    split; [|simpl; lia].
    rewrite has_char_cons. intros [Heq | Hc]; [subst c|contradiction].
    unfold tag_at in Et. rewrite Ascii.eqb_refl in Et.
    exact (tag_end_none s Et (find_tag_gt s p r E)).
Qed.

Lemma find_tag_app_none pre r :
  ~ has_char pre "<"%char -> find_tag r = None -> find_tag (String.append pre r) = None.
Proof.
  induction pre as [|c pre IH]; intros Hp Hr; [exact Hr|].
  rewrite append_cons, find_tag_eq. unfold tag_at.
  destruct (Ascii.eqb_spec c "<"%char) as [-> | Hne].
  - exfalso. apply Hp. apply has_char_cons. left. reflexivity.
  - rewrite IH; [reflexivity | | exact Hr].
    intros H. apply Hp. apply has_char_cons. right. exact H.
Qed.

Lemma replace_all_go_no_tag fuel s :
  String.length s < fuel -> find_tag (replace_all_go fuel s) = None.
Proof.
  revert s. induction fuel as [|f IH]; intros s Hl; [lia|].
  cbn [replace_all_go]. destruct (find_tag s) as [[pre rest]|] eqn:E; [|exact E].
  destruct (find_tag_spec s pre rest E) as [Hp Hr].
  apply find_tag_app_none; [exact Hp | apply IH; lia].
Qed.

Lemma replace_all_go_fixed fuel s : find_tag s = None -> replace_all_go fuel s = s.
Proof. intros H. destruct fuel; cbn [replace_all_go]; [reflexivity | rewrite H; reflexivity]. Qed.

(** C9 (Markup-tag stripping): [removeHTMLTags] is idempotent. *)
Theorem removeHTMLTags_idempotent (s : string) :
  removeHTMLTags (removeHTMLTags s) = removeHTMLTags s.
Proof.
  unfold removeHTMLTags at 1. apply replace_all_go_fixed.
  apply replace_all_go_no_tag. lia.
Qed.

(* ------------------------------------------------------------------ *)
(** ** The caption-list extractor *)

Lemma drop_append_length p q : drop (String.length p) (String.append p q) = q.
Proof. induction p as [|c p IH]; simpl; auto. Qed.

Lemma append_length_inj p1 p2 x y :
  String.length p1 = String.length p2 ->
  String.append p1 x = String.append p2 y -> p1 = p2 /\ x = y.
Proof.
  revert p2. induction p1 as [|c p1 IH]; intros [|d p2] Hl He; simpl in *;
    try discriminate; auto.
  injection Hl as Hl. injection He as -> He.
  destruct (IH p2 Hl He) as [-> ->]. auto.
Qed.

Lemma HasPrefix_empty_nonempty sep : sep <> EmptyString -> HasPrefix EmptyString sep = false.
Proof. destruct sep; [congruence | reflexivity]. Qed.

Lemma Index_first s sep i :
  Index s sep = Some i ->
  first_occurrence s sep (take i s) (drop (i + String.length sep) s).
Proof.
  revert i. induction s as [|d s IH]; intros i H; rewrite Index_eq in H.
  - destruct (HasPrefix "" sep) eqn:E; [|discriminate].
    injection H as <-. apply HasPrefix_spec in E as [post E].
    destruct sep as [|c sep]; [|discriminate E].
    split; [reflexivity | intros; simpl; lia].
  - destruct (HasPrefix (String d s) sep) eqn:E.
    + injection H as <-. pose proof E as E'. apply HasPrefix_spec in E' as [post E'].
      split; [|intros; simpl; lia].
      simpl. rewrite E' at 2. rewrite drop_append_length. exact E'.
    + destruct (Index s sep) as [j|] eqn:E2; [|discriminate].
      injection H as <-. destruct (IH j eq_refl) as [Hs Hmin].
      split.
      * simpl. rewrite Hs at 1. reflexivity.
      * intros [|c pre'] post' Heq.
        { rewrite append_nil_l in Heq. rewrite Heq, HasPrefix_app in E. discriminate. }
        rewrite append_cons in Heq. injection Heq as -> Heq.
        simpl. specialize (Hmin pre' post' Heq). lia.
Qed.

Lemma first_occurrence_unique s sep p1 q1 p2 q2 :
  first_occurrence s sep p1 q1 -> first_occurrence s sep p2 q2 -> p1 = p2 /\ q1 = q2.
Proof.
  intros [H1 M1] [H2 M2].
  assert (Hl : String.length p1 = String.length p2).
  { specialize (M1 p2 q2 H2). specialize (M2 p1 q1 H1). lia. }
  rewrite H1 in H2. destruct (append_length_inj _ _ _ _ Hl H2) as [-> Hx].
  split; [reflexivity|].
  apply (append_length_inj sep sep); auto.
Qed.

Lemma first_occurrence_occurs s sep p q : first_occurrence s sep p q -> occurs sep s.
Proof. intros [H _]. exists p, q. exact H. Qed.

Lemma before_first_unique s sep p1 p2 :
  before_first s sep p1 -> before_first s sep p2 -> p1 = p2.
Proof.
  intros [[q1 H1]|[N1 ->]] [[q2 H2]|[N2 ->]].
  - exact (proj1 (first_occurrence_unique _ _ _ _ _ _ H1 H2)).
  - destruct (N2 (first_occurrence_occurs _ _ _ _ H1)).
  - destruct (N1 (first_occurrence_occurs _ _ _ _ H2)).
  - reflexivity.
Qed.

Lemma before_first_Index s sep :
  before_first s sep (match Index s sep with Some i => take i s | None => s end).
Proof.
  destruct (Index s sep) as [i|] eqn:E.
  - left. eexists. apply Index_first. exact E.
  - right. split; [apply Index_none; exact E | reflexivity].
Qed.

Lemma Split_head s sep :
  List.nth 0 (Split s sep) EmptyString =
  match Index s sep with Some i => take i s | None => s end.
Proof. unfold Split. cbn [split_go]. destruct (Index s sep); reflexivity. Qed.

Lemma Split_none s sep : Index s sep = None -> Split s sep = [s].
Proof. intros E. unfold Split. cbn [split_go]. rewrite E. reflexivity. Qed.

Lemma Split_some s sep i :
  sep <> EmptyString -> Index s sep = Some i ->
  Nat.leb (List.length (Split s sep)) 1 = false /\
  List.nth 1 (Split s sep) EmptyString =
  (let r := drop (i + String.length sep) s in
   match Index r sep with Some j => take j r | None => r end).
Proof.
  intros Hsep E. unfold Split. cbn [split_go]. rewrite E.
  destruct s as [|d s].
  - rewrite Index_eq, HasPrefix_empty_nonempty in E by exact Hsep. discriminate.
  - simpl String.length. cbn [split_go].
    destruct (Index (drop (i + String.length sep) (String d s)) sep); split; reflexivity.
Qed.

Lemma captions_marker_nonempty : captions_marker <> EmptyString.
Proof. discriminate. Qed.

Lemma videoDetails_marker_nonempty : videoDetails_marker <> EmptyString.
Proof. discriminate. Qed.

Example extractCaptionsJSON_plain_page :
  extractCaptionsJSON
    (concat_str ["<html>"; captions_marker; "{"; quoted "playerCaptionsTracklistRenderer";
                 ":{"; quoted "captionTracks"; ":[]}}"; videoDetails_marker; ":{}}"]) "vid" =
  Ok [("captionTracks", JArray [])].
Proof. vm_compute. reflexivity. Qed.

(** Claim C1 (as written, refuted): on [nested_page] the text after the
    marker up to the next [,\x22videoDetails\x22] is [nested_payload], a JSON
    object whose [playerCaptionsTracklistRenderer] field is an object, yet
    the extractor fails with a JSON syntax error: [strings.Split] on the
    first marker also cuts at its second occurrence, inside the payload. *)
Lemma extractCaptionsJSON_payload_counterexample :
  first_occurrence nested_page captions_marker EmptyString nested_rest /\
  before_first nested_rest videoDetails_marker nested_payload /\
  json_Unmarshal_map (delete_byte newline nested_payload) =
    inr [("playerCaptionsTracklistRenderer", JObject [("captionTracks", JArray [])]);
         ("a", JObject [("captions", JNumber "1")])] /\
  extractCaptionsJSON nested_page "vid" = Err (ErrJSON JSONSyntaxError).
Proof.
  split; [|split; [|split]].
  - exact (Index_first nested_page captions_marker 0 eq_refl).
  - exact (before_first_Index nested_rest videoDetails_marker).
  - vm_compute. reflexivity.
  - vm_compute. reflexivity.
Qed.

(** Claim C1 (amended): the extractor fails with TranscriptsUnavailable
    exactly when the marker [\x22captions\x22:] is absent.  Otherwise the
    payload is the text after the first marker up to the first of: the
    next [\x22captions\x22:], then (within that) the first
    [,\x22videoDetails\x22]; newlines are deleted from it; a payload that
    [json.Unmarshal] refuses into a map fails with that JSON error (syntax
    error, or a value neither object nor [null], or a number out of the
    [float64] range); otherwise the result is the
    [playerCaptionsTracklistRenderer] field when it is an object and
    TranscriptsDisabled when it is absent or not an object (also for a
    [null] payload). *)
Theorem extractCaptionsJSON_contract :
  (forall html videoID : string,
     extractCaptionsJSON html videoID = Err ErrTranscriptsUnavailable <->
     ~ occurs captions_marker html) /\
  (forall html videoID pre rest seg part : string,
     first_occurrence html captions_marker pre rest ->
     before_first rest captions_marker seg ->
     before_first seg videoDetails_marker part ->
     extractCaptionsJSON html videoID =
       match json_Unmarshal_map (delete_byte newline part) with
       | inl e => Err (ErrJSON e)
       | inr m =>
           match map_index "playerCaptionsTracklistRenderer" m with
           | Some (JObject captionsJSON) => Ok captionsJSON
           | _ => Err ErrTranscriptsDisabled
           end
       end).
Proof.
  split.
  - intros html vid. unfold extractCaptionsJSON. cbv zeta.
    destruct (Index html captions_marker) as [i|] eqn:E.
    + destruct (Split_some html captions_marker i captions_marker_nonempty E) as [-> _].
      split.
      * destruct (json_Unmarshal_map _); [discriminate|].
        destruct (as_map _); discriminate.
      * intros N. destruct (N (Index_some_occurs _ _ _ E)).
    + rewrite (Split_none _ _ E). simpl.
      split; [intros _; apply Index_none; exact E | reflexivity].
  - intros html vid pre rest seg part Hfo Hseg Hpart.
    unfold extractCaptionsJSON. cbv zeta.
    destruct (Index html captions_marker) as [i|] eqn:E.
    2:{ destruct (Index_none _ _ E (first_occurrence_occurs _ _ _ _ Hfo)). }
    destruct (Split_some html captions_marker i captions_marker_nonempty E) as [-> Hn1].
    cbv zeta in Hn1.
    destruct (first_occurrence_unique _ _ _ _ _ _ Hfo (Index_first _ _ _ E)) as [_ Hrest].
    rewrite Hn1, <- Hrest.
    rewrite (before_first_unique _ _ _ _ (before_first_Index rest captions_marker) Hseg).
    rewrite Split_head.
    rewrite (before_first_unique _ _ _ _ (before_first_Index seg videoDetails_marker) Hpart).
    destruct (json_Unmarshal_map (delete_byte newline part)) as [e|m]; [reflexivity|].
    unfold as_map. destruct (map_index _ m) as [[]|]; reflexivity.
Qed.

Lemma extractCaptionsJSON_contract_witness :
  extractCaptionsJSON nested_page "vid" = Err (ErrJSON JSONSyntaxError).
Proof.
  rewrite (proj2 extractCaptionsJSON_contract nested_page "vid" EmptyString nested_rest
             nested_seg nested_seg).
  - vm_compute. reflexivity.
  - exact (Index_first nested_page captions_marker 0 eq_refl).
  - exact (before_first_Index nested_rest captions_marker).
  - exact (before_first_Index nested_seg videoDetails_marker).
Defined.

(** ** C5, C6: the transcript decoder *)

Lemma str_append_assoc (a b c : string) :
  String.append (String.append a b) c = String.append a (String.append b c).
Proof.
  induction a as [|x a IH]; [reflexivity|].
  rewrite !append_cons, IH. reflexivity.
Qed.

Lemma str_append_nil_r (a : string) : String.append a EmptyString = a.
Proof.
  induction a as [|x a IH]; [reflexivity|].
  rewrite append_cons, IH. reflexivity.
Qed.

Lemma node_tokens_elem nm attrs cs :
  node_tokens (NElem nm attrs cs) = TStart nm attrs :: flat_map node_tokens cs ++ [TEnd nm].
Proof. reflexivity. Qed.

Lemma node_tokens_length n : 1 <= List.length (node_tokens n).
Proof. destruct n; simpl; lia. Qed.

Lemma flat_map_node_tokens_cons c cs :
  flat_map node_tokens (c :: cs) = node_tokens c ++ flat_map node_tokens cs.
Proof. reflexivity. Qed.

Lemma Forall_flat_map_tokens (P : list xml_token -> list xml_token -> Prop)
    (Hrefl : forall rest, P rest rest)
    (Htrans : forall a b c, P a b -> P b c -> P a c)
    cs :
  Forall (fun n => forall rest, P (node_tokens n ++ rest) rest) cs ->
  forall rest, P (flat_map node_tokens cs ++ rest) rest.
Proof.
  induction 1 as [|c cs Hc _ IH]; intros rest; simpl; [apply Hrefl|].
  rewrite <- app_assoc. eapply Htrans; [apply Hc | apply IH].
Qed.

(** A balanced run of tokens is passed over by [skip_go]. *)
Lemma skip_go_node n :
  forall depth rest fin, skip_go depth (node_tokens n ++ rest) fin = skip_go depth rest fin.
Proof.
  induction n as [nm attrs cs Hcs| | | |] using xml_node_ind2; intros depth rest fin;
    try reflexivity.
  rewrite node_tokens_elem. cbn [app skip_go].
  rewrite <- app_assoc.
  assert (H : forall rest', skip_go (S depth) (flat_map node_tokens cs ++ rest') fin
                            = skip_go (S depth) rest' fin).
  { intros rest'.
    refine (Forall_flat_map_tokens
              (fun a b => skip_go (S depth) a fin = skip_go (S depth) b fin)
              (fun _ => eq_refl) (fun a b c H1 H2 => eq_trans H1 H2) cs _ rest').
    eapply Forall_impl; [exact Hcs|]. intros c Hc r. apply Hc. }
  rewrite H. reflexivity.
Qed.

(** Inside a skipped child, [entry_body] collects nothing. *)
Lemma entry_body_node n :
  forall depth acc rest fin,
    entry_body (S depth) acc (node_tokens n ++ rest) fin = entry_body (S depth) acc rest fin.
Proof.
  induction n as [nm attrs cs Hcs| | | |] using xml_node_ind2; intros depth acc rest fin;
    try reflexivity.
  rewrite node_tokens_elem. cbn [app entry_body].
  rewrite <- app_assoc.
  assert (H : forall rest', entry_body (S (S depth)) acc (flat_map node_tokens cs ++ rest') fin
                            = entry_body (S (S depth)) acc rest' fin).
  { intros rest'.
    refine (Forall_flat_map_tokens
              (fun a b => entry_body (S (S depth)) acc a fin = entry_body (S (S depth)) acc b fin)
              (fun _ => eq_refl) (fun a b c H1 H2 => eq_trans H1 H2) cs _ rest').
    eapply Forall_impl; [exact Hcs|]. intros c Hc r. apply Hc. }
  rewrite H. reflexivity.
Qed.

Lemma skip_go_node_list cs depth rest fin :
  skip_go depth (flat_map node_tokens cs ++ rest) fin = skip_go depth rest fin.
Proof.
  refine (Forall_flat_map_tokens
            (fun a b => skip_go depth a fin = skip_go depth b fin)
            (fun _ => eq_refl) (fun a b c H1 H2 => eq_trans H1 H2) cs _ rest).
  apply Forall_forall. intros c _ r. apply skip_go_node.
Qed.

(** The body of a [text] element: its direct character data. *)
Lemma entry_body_children cs :
  forall acc nm rest fin,
    entry_body 0 acc (flat_map node_tokens cs ++ TEnd nm :: rest) fin
    = inr (String.append acc (direct_chars cs), rest).
Proof.
  induction cs as [|c cs IH]; intros acc nm rest fin.
  - simpl. rewrite str_append_nil_r. reflexivity.
  - rewrite flat_map_node_tokens_cons, <- app_assoc.
    destruct c as [nm' attrs' ccs| d | d | t i | d]; cbn [node_tokens direct_chars].
    + cbn [app entry_body]. rewrite <- app_assoc.
      assert (H : forall rest', entry_body 1 acc (flat_map node_tokens ccs ++ rest') fin
                                = entry_body 1 acc rest' fin).
      { intros rest'.
        refine (Forall_flat_map_tokens
                  (fun a b => entry_body 1 acc a fin = entry_body 1 acc b fin)
                  (fun _ => eq_refl) (fun a b c H1 H2 => eq_trans H1 H2) ccs _ rest').
        apply Forall_forall. intros c _ r. apply entry_body_node. }
      rewrite H. cbn [app entry_body]. apply IH.
    + cbn [app entry_body Nat.eqb]. rewrite IH, str_append_assoc. reflexivity.
    + cbn [app entry_body]. apply IH.
    + cbn [app entry_body]. apply IH.
    + cbn [app entry_body]. apply IH.
Qed.

Lemma flat_map_node_tokens_length cs :
  List.length cs <= List.length (flat_map node_tokens cs).
Proof.
  induction cs as [|c cs IH]; simpl; [lia|].
  rewrite length_app. pose proof (node_tokens_length c). lia.
Qed.

(** The loop over the root's children, given enough rounds. *)
Lemma root_loop_children cs :
  forall fuel acc nm rest fin,
    List.length (flat_map node_tokens cs) < fuel ->
    root_loop fuel acc (flat_map node_tokens cs ++ TEnd nm :: rest) fin
    = match spec_entries cs with
      | inl e => inl e
      | inr es => inr (acc ++ es)
      end.
Proof.
  induction cs as [|c cs IH]; intros fuel acc nm rest fin Hf;
    (destruct fuel as [|fuel]; [simpl in Hf; lia|]).
  - simpl. rewrite app_nil_r. reflexivity.
  - rewrite flat_map_node_tokens_cons, <- app_assoc.
    rewrite flat_map_node_tokens_cons, length_app in Hf.
    assert (Hcs : List.length (flat_map node_tokens cs) < fuel)
      by (pose proof (node_tokens_length c); lia).
    clear Hf.
    destruct c as [nm' attrs' ccs| d | d | t i | d]; cbn [node_tokens spec_entries].
    + cbn [app root_loop]. rewrite <- app_assoc. cbn [app].
      destruct (String.eqb (local_name nm') "text").
      * unfold unmarshal_entry, spec_entry.
        destruct (entry_attrs attrs' (F64 0) (F64 0)) as [e|[st du]]; [reflexivity|].
        rewrite entry_body_children, append_nil_l.
        rewrite IH by exact Hcs.
        destruct (spec_entries cs) as [e|es]; [reflexivity|].
        rewrite <- app_assoc. reflexivity.
      * rewrite skip_go_node_list. cbn [skip_go].
        apply IH, Hcs.
    + cbn [app root_loop]. apply IH, Hcs.
    + cbn [app root_loop]. apply IH, Hcs.
    + cbn [app root_loop]. apply IH, Hcs.
    + cbn [app root_loop]. apply IH, Hcs.
Qed.

(** [Unmarshal] passes over a prolog without start elements. *)
Lemma xml_Unmarshal_prolog prolog r attrs ts fin :
  no_start prolog ->
  xml_Unmarshal (prolog ++ TStart r attrs :: ts) fin
  = root_loop (S (List.length ts)) [] ts fin.
Proof.
  induction 1 as [|t prolog Ht _ IH]; [reflexivity|].
  destruct t; [contradiction| exact IH..].
Qed.

(** C5 (counterexample): scenario E does not decode to one entry with
    text "Hello &amp;World", start 1.0 and duration 2.5, neither as
    written nor inside a root element. *)
Lemma parseTranscript_scenario_E_counterexample :
  parseTranscript scenario_E_doc
    <> Ok [{| Text := "Hello &amp;World"; Start := F64 1; Duration := F64 (5 # 2) |}]
  /\ parseTranscript scenario_E_wrapped
    <> Ok [{| Text := "Hello &amp;World"; Start := F64 1; Duration := F64 (5 # 2) |}].
Proof. split; intros H; vm_compute in H; discriminate H. Qed.

(** C5: scenario E as written decodes to no entry, since its root is
    the [text] element itself and only children of the root named
    [text] are read; inside a [<transcript>] root it decodes to one
    entry with start 1, duration 2.5 and text "Hello &": the XML layer
    decodes the entity and drops the nested [b] element with its
    content. *)
Theorem parseTranscript_scenario_E :
  parseTranscript scenario_E_doc = Ok []
  /\ parseTranscript scenario_E_wrapped
     = Ok [{| Text := "Hello &"; Start := F64 1; Duration := F64 (5 # 2) |}].
Proof. split; vm_compute; reflexivity. Qed.

Lemma entry_attrs_absent attrs :
  forall st du,
    Forall (fun a => local_name (fst a) <> "start" /\ local_name (fst a) <> "dur") attrs ->
    entry_attrs attrs st du = inr (st, du).
Proof.
  induction attrs as [|[nm v] attrs IH]; intros st du Ha; [reflexivity|].
  inversion Ha as [|? ? [Hs Hd] Ha']; subst. cbn [entry_attrs].
  cbn [fst] in Hs, Hd. apply String.eqb_neq in Hs, Hd. rewrite Hs, Hd. apply IH, Ha'.
Qed.

Lemma entry_attrs_fail attrs :
  forall st du nm v e,
    In (nm, v) attrs ->
    local_name nm = "start" \/ local_name nm = "dur" ->
    copy_float v = inl e ->
    exists e', entry_attrs attrs st du = inl e'.
Proof.
  induction attrs as [|[nm' v'] attrs IH]; intros st du nm v e Hin Hnm Hv;
    [destruct Hin|].
  destruct Hin as [Heq | Hin].
  - injection Heq as <- <-. cbn [entry_attrs].
    destruct Hnm as [Hnm | Hnm]; rewrite Hnm; cbn; rewrite Hv; eauto.
  - cbn [entry_attrs].
    destruct (String.eqb (local_name nm') "start");
      [|destruct (String.eqb (local_name nm') "dur")];
      [destruct (copy_float v') as [e'|x] ..|]; eauto.
Qed.

Lemma spec_entries_fail cs :
  forall nm attrs ccs,
    In (NElem nm attrs ccs) cs ->
    local_name nm = "text" ->
    (exists e, entry_attrs attrs (F64 0) (F64 0) = inl e) ->
    exists e, spec_entries cs = inl e.
Proof.
  induction cs as [|c cs IH]; intros nm attrs ccs Hin Hnm [e He]; [destruct Hin|].
  destruct Hin as [-> | Hin].
  - cbn [spec_entries]. rewrite Hnm. cbn. unfold spec_entry. rewrite He. eauto.
  - destruct (IH nm attrs ccs Hin Hnm (ex_intro _ e He)) as [e' He'].
    destruct c as [nm' attrs' ccs'| | | |]; cbn [spec_entries];
      [|exists e'; exact He'..].
    destruct (String.eqb (local_name nm') "text"); [|exists e'; exact He'].
    destruct (spec_entry attrs' ccs'); [eauto|]. rewrite He'. eauto.
Qed.

Lemma parseTranscript_tree xmlData prolog root attrs cs tail fin :
  tokens xmlData = (prolog ++ node_tokens (NElem root attrs cs) ++ tail, fin) ->
  no_start prolog ->
  parseTranscript xmlData
  = match spec_entries cs with
    | inl e => Err (ErrXML e)
    | inr es => Ok (map strip_entry es)
    end.
Proof.
  intros Ht Hp. unfold parseTranscript. rewrite Ht. cbv beta iota.
  rewrite node_tokens_elem. cbn [app].
  rewrite xml_Unmarshal_prolog by exact Hp.
  rewrite <- app_assoc. cbn [app].
  rewrite root_loop_children by (rewrite length_app; cbn [List.length]; lia).
  destruct (spec_entries cs); reflexivity.
Qed.

(** C6: a document whose root element holds the children [cs] (after a
    prolog without start elements) decodes as [spec_entries] reads
    them: one entry per child named [text] (by local name), in document
    order, with the child's direct character data (entities decoded,
    nested elements dropped) stripped of tags; an absent [start] or
    [dur] attribute leaves 0 (an empty one also gives 0), while one
    that does not convert fails the whole document. *)
Theorem parseTranscript_entries :
  (forall xmlData prolog root attrs cs tail fin,
      tokens xmlData = (prolog ++ node_tokens (NElem root attrs cs) ++ tail, fin) ->
      no_start prolog ->
      parseTranscript xmlData
      = match spec_entries cs with
        | inl e => Err (ErrXML e)
        | inr es => Ok (map strip_entry es)
        end)
  /\ (forall attrs,
      Forall (fun a => local_name (fst a) <> "start" /\ local_name (fst a) <> "dur") attrs ->
      entry_attrs attrs (F64 0) (F64 0) = inr (F64 0, F64 0))
  /\ copy_float EmptyString = inr (F64 0)
  /\ (forall attrs nm v e,
      In (nm, v) attrs ->
      local_name nm = "start" \/ local_name nm = "dur" ->
      copy_float v = inl e ->
      exists e', entry_attrs attrs (F64 0) (F64 0) = inl e')
  /\ (forall cs nm attrs ccs,
      In (NElem nm attrs ccs) cs ->
      local_name nm = "text" ->
      (exists e, entry_attrs attrs (F64 0) (F64 0) = inl e) ->
      exists e, spec_entries cs = inl e).
Proof.
  split; [exact parseTranscript_tree|].
  split; [intros attrs; apply entry_attrs_absent|].
  split; [vm_compute; reflexivity|].
  split; [intros attrs nm v e; apply entry_attrs_fail|].
  exact spec_entries_fail.
Qed.

Lemma parseTranscript_entries_witness :
  parseTranscript sample_transcript
  = Ok [{| Text := "Hi there"; Start := F64 (3 # 2); Duration := F64 2 |};
        {| Text := "xw"; Start := F64 0; Duration := F64 0 |}]
  /\ entry_attrs [("x:dur", "x")] (F64 0) (F64 0) = inl XMLParseFloatError.
Proof.
  split.
  - rewrite (proj1 parseTranscript_entries sample_transcript sample_prolog
               "transcript" [] sample_children [] XMLEOF).
    + vm_compute. reflexivity.
    + vm_compute. reflexivity.
    + repeat constructor.
  - destruct (proj1 (proj2 (proj2 (proj2 parseTranscript_entries)))
                [("x:dur", "x")] "x:dur" "x" XMLParseFloatError) as [e He].
    + left. reflexivity.
    + right. vm_compute. reflexivity.
    + vm_compute. reflexivity.
    + rewrite He. vm_compute in He. symmetry. exact He.
Defined.

(** C6 (counterexample): a [text] element without [start] and [dur]
    attributes does not fail the document; it gives an entry with
    start and duration 0. *)
Lemma parseTranscript_absent_attr_counterexample :
  parseTranscript "<transcript><text>Hi</text></transcript>"
  = Ok [{| Text := "Hi"; Start := F64 0; Duration := F64 0 |}].
Proof. vm_compute. reflexivity. Qed.

(* ------------------------------------------------------------------ *)
(** ** Further properties of the code *)

Lemma drop_take n k r : drop k (take n r) = take (n - k) (drop k r).
Proof.
  revert n r. induction k as [|k IH]; intros n r.
  - rewrite Nat.sub_0_r. reflexivity.
  - destruct r as [|c r]; [destruct n; cbn; try destruct (_ - _); reflexivity|].
    destruct n as [|n]; [reflexivity|]. cbn [take drop]. rewrite IH. reflexivity.
Qed.

Lemma byte_in_take lo hi m x : byte_in lo hi (take m x) = Nat.ltb 0 m && byte_in lo hi x.
Proof. destruct m as [|m], x as [|c x]; reflexivity. Qed.

Ltac split_conds :=
  repeat match goal with |- context [if ?c then _ else _] =>
    lazymatch c with
    | true => fail
    | false => fail
    | context [byte_in _ _ _] => fail
    | _ => destruct c
    end
  end; cbv iota.

Lemma rune_width_take n s : rune_width s <= n -> rune_width (take n s) = rune_width s.
Proof.
  destruct s as [|b0 r]; [destruct n; reflexivity|].
  destruct n as [|n].
  { unfold rune_width. cbv zeta. split_conds;
    repeat match goal with |- context [if ?c then _ else _] => destruct c end; lia. }
  cbn [take]. revert n. unfold rune_width. cbv zeta. intros n.
  rewrite !drop_take, !byte_in_take. split_conds;
  repeat match goal with |- context [byte_in ?a ?b ?x] => destruct (byte_in a b x) end;
  destruct (Nat.ltb_spec 0 n); destruct (Nat.ltb_spec 0 (n - 1)); destruct (Nat.ltb_spec 0 (n - 2));
  cbn [andb]; cbv iota; lia.
Qed.

Lemma byte_in_len lo hi x : byte_in lo hi x = true -> 1 <= String.length x.
Proof. destruct x; cbn; [discriminate | lia]. Qed.

Lemma length_drop n s : String.length (drop n s) = String.length s - n.
Proof.
  revert s. induction n as [|n IH]; intros [|c s]; cbn; try lia. apply IH.
Qed.

Lemma rune_width_bounds s : s <> EmptyString -> 1 <= rune_width s <= String.length s.
Proof.
  destruct s as [|b0 r]; [congruence|]. intros _.
  unfold rune_width. cbv zeta. cbn [String.length]. split_conds;
  repeat match goal with |- context [byte_in ?a ?b ?x] =>
    let E := fresh in destruct (byte_in a b x) eqn:E;
    [apply byte_in_len in E; rewrite ?length_drop in E|] end;
  cbn [andb]; cbv iota; lia.
Qed.

Lemma length_take n s : n <= String.length s -> String.length (take n s) = n.
Proof.
  revert s. induction n as [|n IH]; intros [|c s] H; cbn in *; try lia.
  rewrite IH; lia.
Qed.

Lemma take_drop_append n s : String.append (take n s) (drop n s) = s.
Proof.
  revert s. induction n as [|n IH]; intros [|c s]; try reflexivity.
  cbn [take drop]. rewrite append_cons, IH. reflexivity.
Qed.

Lemma take_append_length a b : take (String.length a) (String.append a b) = a.
Proof.
  induction a as [|c a IH]; [reflexivity|].
  rewrite append_cons. cbn [String.length take]. rewrite IH. reflexivity.
Qed.

Lemma runes_go_fuel_eq f g s :
  String.length s <= f -> String.length s <= g -> runes_go f s = runes_go g s.
Proof.
  revert g s. induction f as [|f IH]; intros g s Hf Hg.
  - destruct s; [destruct g; reflexivity | cbn in Hf; lia].
  - destruct g as [|g]; [destruct s; [reflexivity | cbn in Hg; lia]|].
    destruct s as [|b r]; [reflexivity|].
    cbn [runes_go]. f_equal.
    assert (Hw : 1 <= rune_width (String b r) <= String.length (String b r))
      by (apply rune_width_bounds; discriminate).
    apply IH; rewrite length_drop; cbn [String.length] in *; lia.
Qed.

Lemma runes_go_fuel f s : String.length s <= f -> runes_go f s = runes s.
Proof. intros H. apply runes_go_fuel_eq; [exact H | unfold runes; lia]. Qed.

Lemma runes_empty : runes EmptyString = [].
Proof. reflexivity. Qed.

Lemma runes_cons s :
  s <> EmptyString ->
  runes s = take (rune_width s) s :: runes (drop (rune_width s) s).
Proof.
  intros Hs. destruct s as [|b r]; [congruence|].
  unfold runes at 1. cbn [String.length runes_go]. f_equal.
  apply runes_go_fuel. rewrite length_drop.
  pose proof (rune_width_bounds (String b r) Hs). cbn [String.length] in *. lia.
Qed.

Lemma str_length_append a b :
  String.length (String.append a b) = String.length a + String.length b.
Proof. induction a as [|c a IH]; [reflexivity|]. rewrite append_cons. cbn. lia. Qed.

Lemma concat_str_app l1 l2 :
  concat_str (l1 ++ l2) = String.append (concat_str l1) (concat_str l2).
Proof.
  induction l1 as [|x l1 IH]; [reflexivity|].
  cbn [app concat_str fold_right]. unfold concat_str in *. rewrite IH, str_append_assoc. reflexivity.
Qed.

Lemma concat_str_cons x l : concat_str (x :: l) = String.append x (concat_str l).
Proof. reflexivity. Qed.

Lemma runes_concat s : concat_str (runes s) = s.
Proof.
  remember (String.length s) as n eqn:En. revert s En.
  induction n as [n IHn] using lt_wf_ind. intros s En.
  destruct s as [|b r]; [reflexivity|].
  rewrite runes_cons by discriminate. rewrite concat_str_cons.
  pose proof (rune_width_bounds (String b r) ltac:(discriminate)).
  rewrite (IHn (String.length (drop (rune_width (String b r)) (String b r)))).
  - apply take_drop_append.
  - rewrite length_drop. lia.
  - reflexivity.
Qed.

Lemma runes_nonempty s r rs : runes s = r :: rs -> s <> EmptyString.
Proof. intros H ->. discriminate. Qed.

Lemma runes_split s rs1 rs2 :
  runes s = rs1 ++ rs2 ->
  s = String.append (concat_str rs1) (concat_str rs2) /\ runes (concat_str rs2) = rs2.
Proof.
  revert s. induction rs1 as [|r rs1 IH]; intros s H.
  - cbn [app] in H. subst rs2. rewrite runes_concat. split; reflexivity.
  - cbn [app] in H. pose proof (runes_nonempty _ _ _ H) as Hs.
    rewrite runes_cons in H by exact Hs. injection H as Hr Ht.
    destruct (IH _ Ht) as [Hd Hrs]. split; [|exact Hrs].
    rewrite concat_str_cons, str_append_assoc, <- Hd, <- Hr.
    symmetry. apply take_drop_append.
Qed.

Lemma runes_prefix s rs1 rs2 : runes s = rs1 ++ rs2 -> runes (concat_str rs1) = rs1.
Proof.
  revert s. induction rs1 as [|r rs1 IH]; intros s H; [reflexivity|].
  cbn [app] in H. pose proof (runes_nonempty _ _ _ H) as Hs.
  pose proof (rune_width_bounds s Hs) as Hw.
  rewrite runes_cons in H by exact Hs. injection H as Hr Ht.
  destruct (runes_split _ _ _ Ht) as [Hd _].
  specialize (IH _ Ht).
  set (w := rune_width s) in *.
  assert (Hlr : String.length r = w) by (rewrite <- Hr; apply length_take; lia).
  set (x := String.append r (concat_str rs1)).
  assert (Hsx : s = String.append x (concat_str rs2)).
  { unfold x. rewrite str_append_assoc, <- Hd, <- Hr. symmetry. apply take_drop_append. }
  assert (Hlx : w <= String.length x) by (unfold x; rewrite str_length_append; lia).
  assert (Hwx : rune_width x = w).
  { rewrite <- (take_append_length x (concat_str rs2)), <- Hsx.
    apply rune_width_take. exact Hlx. }
  assert (Hx : x <> EmptyString) by (intros Hx; rewrite Hx in Hlx; cbn in Hlx; lia).
  rewrite concat_str_cons. fold x.
  rewrite runes_cons by exact Hx. rewrite Hwx.
  unfold x. rewrite <- Hlr, take_append_length, drop_append_length, IH. reflexivity.
Qed.

Lemma runes_slice s pre mid post :
  runes s = pre ++ mid ++ post ->
  s = String.append (concat_str pre) (String.append (concat_str mid) (concat_str post)) /\
  runes (concat_str mid) = mid.
Proof.
  intros H. destruct (runes_split _ _ _ H) as [Hs Hr].
  split.
  - rewrite Hs, concat_str_app. reflexivity.
  - rewrite concat_str_app in Hr. exact (runes_prefix _ _ _ Hr).
Qed.

Import VideoRegexp.

Lemma find_leftmost_some m rs t :
  find_leftmost m rs = Some t -> exists pre suf, rs = pre ++ suf /\ m suf = Some t.
Proof.
  induction rs as [|r rs IH]; cbn [find_leftmost].
  - destruct (m []) eqn:E; intros H; [injection H as <-; exists [], []; auto | discriminate].
  - destruct (m (r :: rs)) eqn:E; intros H.
    + injection H as <-. exists [], (r :: rs). auto.
    + destruct (IH H) as (pre & suf & -> & Hm). exists (r :: pre), suf. auto.
Qed.

Lemma find_leftmost_none m rs :
  (forall pre suf, rs = pre ++ suf -> m suf = None) -> find_leftmost m rs = None.
Proof.
  induction rs as [|r rs IH]; intros H; cbn [find_leftmost].
  - rewrite (H [] []); reflexivity.
  - rewrite (H [] (r :: rs)) by reflexivity.
    apply IH. intros pre suf ->. apply (H (r :: pre)). reflexivity.
Qed.

Lemma id_token_some n rs t :
  id_token n rs = Some t ->
  exists rs1 rs2, rs = rs1 ++ rs2 /\ List.length rs1 = n /\
    Forall (fun r => id_class r = true) rs1 /\ t = concat_str rs1.
Proof.
  revert rs t. induction n as [|n IH]; intros rs t H; cbn [id_token] in H.
  - injection H as <-. exists [], rs. auto.
  - destruct rs as [|r rs]; [discriminate|].
    destruct (id_class r) eqn:Ec; [|discriminate].
    destruct (id_token n rs) as [t'|] eqn:Et; [|discriminate].
    injection H as <-. destruct (IH rs t' Et) as (rs1 & rs2 & -> & Hl & Hf & ->).
    exists (r :: rs1), rs2. repeat split; cbn; auto.
Qed.

Lemma id_token_all rs1 rs2 :
  Forall (fun r => id_class r = true) rs1 ->
  id_token (List.length rs1) (rs1 ++ rs2) = Some (concat_str rs1).
Proof.
  induction 1 as [|r rs1 Hr _ IH]; [reflexivity|].
  cbn [List.length app id_token]. rewrite Hr, IH. reflexivity.
Qed.

Lemma literal_some w rs rs' : literal w rs = Some rs' -> exists p, rs = p ++ rs'.
Proof.
  revert rs. induction w as [|c w IH]; intros rs H; cbn [literal] in H.
  - injection H as <-. exists []. reflexivity.
  - destruct rs as [|r rs]; [discriminate|].
    destruct (String.eqb r (String c EmptyString)); [|discriminate].
    destruct (IH rs H) as [p ->]. exists (r :: p). reflexivity.
Qed.

Lemma alternatives_some ws k rs t :
  alternatives ws k rs = Some t -> exists p rs', rs = p ++ rs' /\ k rs' = Some t.
Proof.
  induction ws as [|w ws IH]; cbn [alternatives]; [discriminate|].
  destruct (literal w rs) as [rs'|] eqn:El; [|exact IH].
  destruct (k rs') as [m|] eqn:Ek; [|exact IH].
  intros H. injection H as <-. destruct (literal_some _ _ _ El) as [p ->]. eauto.
Qed.

Lemma alternatives_none ws k rs :
  (forall p rs', rs = p ++ rs' -> k rs' = None) -> alternatives ws k rs = None.
Proof.
  intros H. induction ws as [|w ws IH]; cbn [alternatives]; [reflexivity|].
  destruct (literal w rs) as [rs'|] eqn:El; [|exact IH].
  destruct (literal_some _ _ _ El) as [p Hp]. rewrite (H p rs' Hp). exact IH.
Qed.

(** Every pattern's capture is 11 consecutive runes of the class. *)
Lemma pattern_capture re rs t :
  In re videoRegexpList -> re rs = Some t ->
  exists p rs1 rs2, rs = p ++ rs1 ++ rs2 /\ List.length rs1 = 11 /\
    Forall (fun r => id_class r = true) rs1 /\ t = concat_str rs1.
Proof.
  assert (Hs : forall rs t, sep_then_id rs = Some t ->
            exists p rs', rs = p ++ rs' /\ id_token 11 rs' = Some t)
    by (intros rs0 t0 H; exact (alternatives_some _ _ _ _ H)).
  intros Hin H.
  assert (Hk : exists p rs', rs = p ++ rs' /\ id_token 11 rs' = Some t).
  { destruct Hin as [<- | [<- | [<- | []]]].
    - destruct (alternatives_some _ _ _ _ H) as (p & rs' & -> & H').
      destruct (Hs _ _ H') as (p' & rs'' & -> & H'').
      exists (p ++ p'), rs''. rewrite app_assoc. auto.
    - exact (Hs _ _ H).
    - exists [], rs. auto. }
  destruct Hk as (p & rs' & -> & Ht).
  destruct (id_token_some _ _ _ Ht) as (rs1 & rs2 & -> & Hl & Hf & ->).
  exists p, rs1, rs2. auto.
Qed.

Lemma first_submatch_some s t :
  first_submatch videoRegexpList s = Some t ->
  exists pre rs1 post, runes s = pre ++ rs1 ++ post /\ List.length rs1 = 11 /\
    Forall (fun r => id_class r = true) rs1 /\ t = concat_str rs1.
Proof.
  assert (Hgen : forall res, incl res videoRegexpList ->
            first_submatch res s = Some t ->
            exists pre rs1 post, runes s = pre ++ rs1 ++ post /\ List.length rs1 = 11 /\
              Forall (fun r => id_class r = true) rs1 /\ t = concat_str rs1).
  { induction res as [|re res IH]; intros Hincl H; cbn [first_submatch] in H; [discriminate|].
    destruct (find_leftmost re (runes s)) as [m|] eqn:Ef.
    - injection H as <-. destruct (find_leftmost_some _ _ _ Ef) as (pre & suf & Hs & Hm).
      destruct (pattern_capture re suf m (Hincl re (or_introl eq_refl)) Hm)
        as (p & rs1 & rs2 & -> & Hl & Hf & ->).
      exists (pre ++ p), rs1, rs2. rewrite Hs, <- app_assoc. auto.
    - apply IH; [intros x Hx; apply Hincl; right; exact Hx | exact H]. }
  apply Hgen. intros x Hx. exact Hx.
Qed.

Lemma id_class_not_sep r : id_class r = true -> String.eqb r "=" = false /\ String.eqb r "/" = false.
Proof.
  unfold id_class. cbn [existsb]. intros H.
  apply negb_true_iff in H. apply orb_false_iff in H as [_ H].
  apply orb_false_iff in H as [_ H]. apply orb_false_iff in H as [_ H].
  apply orb_false_iff in H as [H1 H]. apply orb_false_iff in H as [H2 _]. auto.
Qed.

Lemma sep_then_id_class rs :
  Forall (fun r => id_class r = true) rs -> sep_then_id rs = None.
Proof.
  intros H. destruct H as [|r rs Hr _]; [reflexivity|].
  destruct (id_class_not_sep r Hr) as [H1 H2].
  unfold sep_then_id. cbn [alternatives literal]. rewrite H1, H2. reflexivity.
Qed.

Lemma Forall_app_r {A} (P : A -> Prop) l1 l2 : Forall P (l1 ++ l2) -> Forall P l2.
Proof. intros H. apply Forall_app in H. apply H. Qed.

(** Inside an ID-class run, only the last pattern matches, at its start. *)
Lemma first_submatch_id t rs :
  runes t = rs -> List.length rs = 11 -> Forall (fun r => id_class r = true) rs ->
  first_submatch videoRegexpList t = Some t.
Proof.
  intros Hr Hl Hf. unfold videoRegexpList. cbn [first_submatch]. rewrite Hr.
  rewrite find_leftmost_none.
  2:{ intros pre suf ->. unfold re_marker. apply alternatives_none.
      intros p rs' ->. apply sep_then_id_class.
      apply Forall_app_r in Hf. apply Forall_app_r in Hf. exact Hf. }
  rewrite find_leftmost_none.
  2:{ intros pre suf ->. unfold re_sep. apply sep_then_id_class.
      apply Forall_app_r in Hf. exact Hf. }
  assert (Ha : re_any rs = Some t).
  { unfold re_any. pose proof (id_token_all rs [] Hf) as Hi.
    rewrite app_nil_r, Hl in Hi. rewrite Hi, <- Hr, runes_concat. reflexivity. }
  destruct rs as [|r0 rs0]; cbn [find_leftmost]; rewrite Ha; reflexivity.
Qed.

Lemma ExtractVideoID_ok s v :
  ExtractVideoID s = Ok v ->
  v = extract_candidate s /\ ContainsAny v "?&/<%=" = false /\ 10 <= String.length v.
Proof.
  unfold ExtractVideoID. cbv zeta.
  destruct (ContainsAny (extract_candidate s) "?&/<%=") eqn:E1; [discriminate|].
  destruct (Nat.ltb_spec (String.length (extract_candidate s)) 10); [discriminate|].
  intros Hok. injection Hok as <-. auto.
Qed.

Lemma extract_candidate_cases s :
  extract_candidate s = s \/ first_submatch videoRegexpList s = Some (extract_candidate s).
Proof.
  unfold extract_candidate.
  destruct (Contains s "youtu" || ContainsAny s (String dquote "?&/<%=")); [|auto].
  destruct (first_submatch videoRegexpList s); auto.
Qed.

Lemma extract_candidate_capture s :
  extract_candidate s = s \/
  exists pre rs1 post, runes s = pre ++ rs1 ++ post /\ List.length rs1 = 11 /\
    Forall (fun r => id_class r = true) rs1 /\ extract_candidate s = concat_str rs1.
Proof.
  destruct (extract_candidate_cases s) as [H | H]; [auto|].
  right. exact (first_submatch_some _ _ H).
Qed.

(** A resolved ID is a fixed point of the resolver. *)
Theorem ExtractVideoID_idempotent (s v : string) :
  ExtractVideoID s = Ok v -> ExtractVideoID v = Ok v.
Proof.
  intros H. destruct (ExtractVideoID_ok s v H) as (Hv & Hr & Hl).
  assert (Hc : extract_candidate v = v).
  { destruct (extract_candidate_capture s) as [Hs | (pre & rs1 & post & Hrs & Hl1 & Hf & Hs)].
    - rewrite Hv, Hs, Hs. reflexivity.
    - rewrite Hv, Hs. rewrite Hs in Hv.
      destruct (runes_slice _ _ _ _ Hrs) as [_ Hr1].
      pose proof (first_submatch_id _ _ Hr1 Hl1 Hf) as Hm.
      unfold extract_candidate. rewrite Hm.
      destruct (_ || _); reflexivity. }
  unfold ExtractVideoID. cbv zeta. rewrite Hc, Hr.
  destruct (Nat.ltb_spec (String.length v) 10); [lia | reflexivity].
Qed.

(** A resolved ID is the input itself, or a substring of it made of
    exactly 11 runes, none of them [\x22 & ? / = %]. *)
Theorem ExtractVideoID_result_shape (s v : string) :
  ExtractVideoID s = Ok v ->
  v = s \/
  (occurs v s /\ List.length (runes v) = 11 /\
   Forall (fun r => id_class r = true) (runes v)).
Proof.
  intros H. destruct (ExtractVideoID_ok s v H) as (Hv & _ & _).
  destruct (extract_candidate_capture s) as [Hs | (pre & rs1 & post & Hrs & Hl1 & Hf & Hs)].
  - left. congruence.
  - right. rewrite Hv, Hs.
    destruct (runes_slice _ _ _ _ Hrs) as [Hsplit Hr1].
    rewrite Hr1. split; [|auto].
    exists (concat_str pre), (concat_str post). exact Hsplit.
Qed.

Lemma replace_all_go_fuel f g s :
  String.length s < f -> String.length s < g -> replace_all_go f s = replace_all_go g s.
Proof.
  revert g s. induction f as [|f IH]; intros g s Hf Hg; [lia|].
  destruct g as [|g]; [lia|]. cbn [replace_all_go].
  destruct (find_tag s) as [[pre rest]|] eqn:E; [|reflexivity].
  destruct (find_tag_spec s pre rest E) as [_ Hl].
  f_equal. apply IH; lia.
Qed.

Lemma removeHTMLTags_step s :
  removeHTMLTags s =
  match find_tag s with
  | None => s
  | Some (pre, rest) => String.append pre (removeHTMLTags rest)
  end.
Proof.
  unfold removeHTMLTags at 1. cbn [replace_all_go].
  destruct (find_tag s) as [[pre rest]|] eqn:E; [|reflexivity].
  destruct (find_tag_spec s pre rest E) as [_ Hl].
  f_equal. apply replace_all_go_fuel; lia.
Qed.

Lemma find_tag_no_lt_app a b :
  ~ has_char a "<"%char ->
  find_tag (String.append a b) =
  match find_tag b with Some (pre, rest) => Some (String.append a pre, rest) | None => None end.
Proof.
  induction a as [|c a IH]; intros Ha.
  - rewrite append_nil_l. destruct (find_tag b) as [[pre rest]|]; reflexivity.
  - rewrite append_cons, find_tag_eq. unfold tag_at.
    destruct (Ascii.eqb_spec c "<"%char) as [-> | Hne].
    + exfalso. apply Ha. apply has_char_cons. auto.
    + rewrite IH by (intros H; apply Ha, has_char_cons; auto).
      destruct (find_tag b) as [[pre rest]|]; reflexivity.
Qed.

Lemma tag_end_app m b :
  ~ has_char m ">"%char -> tag_end (String.append m (String ">"%char b)) = Some b.
Proof.
  induction m as [|c m IH]; intros Hm; [reflexivity|].
  rewrite append_cons. cbn [tag_end].
  destruct (Ascii.eqb_spec c ">"%char) as [-> | Hne].
  - exfalso. apply Hm, has_char_cons. auto.
  - apply IH. intros H. apply Hm, has_char_cons. auto.
Qed.

Lemma find_tag_no_gt s : ~ has_char s ">"%char -> find_tag s = None.
Proof.
  intros H. destruct (find_tag s) as [[pre rest]|] eqn:E; [|reflexivity].
  exfalso. exact (H (find_tag_gt s pre rest E)).
Qed.

(** [removeHTMLTags] deletes, from left to right, each ['<'] together
    with everything up to the first ['>'] after it; a ['<'] with no ['>']
    after it is kept with the rest of the input. *)
Theorem removeHTMLTags_equations :
  removeHTMLTags EmptyString = EmptyString /\
  (forall a b, ~ has_char a "<"%char ->
     removeHTMLTags (String.append a b) = String.append a (removeHTMLTags b)) /\
  (forall m b, ~ has_char m ">"%char ->
     removeHTMLTags (String "<"%char (String.append m (String ">"%char b))) = removeHTMLTags b) /\
  (forall m, ~ has_char m ">"%char ->
     removeHTMLTags (String "<"%char m) = String "<"%char m).
Proof.
  split; [reflexivity|]. split; [|split].
  - intros a b Ha. rewrite removeHTMLTags_step, find_tag_no_lt_app by exact Ha.
    rewrite (removeHTMLTags_step b).
    destruct (find_tag b) as [[pre rest]|]; [|reflexivity].
    rewrite str_append_assoc. reflexivity.
  - intros m b Hm. rewrite removeHTMLTags_step, find_tag_eq. unfold tag_at.
    rewrite Ascii.eqb_refl, tag_end_app by exact Hm. reflexivity.
  - intros m Hm. rewrite removeHTMLTags_step, find_tag_no_gt; [reflexivity|].
    rewrite has_char_cons. intros [H | H]; [discriminate | exact (Hm H)].
Qed.

Lemma find_tag_none_order s :
  find_tag s = None ->
  forall i j, i < j -> String.get i s = Some "<"%char -> String.get j s <> Some ">"%char.
Proof.
  induction s as [|c s IH]; intros H i j Hij Hi Hj; [destruct i; discriminate|].
  rewrite find_tag_eq in H.
  destruct (tag_at (String c s)) as [r|] eqn:Et; [discriminate|].
  destruct (find_tag s) as [[pre rest]|] eqn:E; [discriminate|].
  destruct j as [|j]; [lia|]. cbn [String.get] in Hj.
  destruct i as [|i].
  - cbn [String.get] in Hi. injection Hi as ->.
    unfold tag_at in Et. rewrite Ascii.eqb_refl in Et.
    apply (tag_end_none s Et). exists j. exact Hj.
  - cbn [String.get] in Hi. apply (IH eq_refl i j); [lia | exact Hi | exact Hj].
Qed.

(** No ['<'] of the output of [removeHTMLTags] has a ['>'] after it. *)
Theorem removeHTMLTags_no_tag (s : string) :
  forall i j, i < j ->
  String.get i (removeHTMLTags s) = Some "<"%char ->
  String.get j (removeHTMLTags s) <> Some ">"%char.
Proof.
  apply find_tag_none_order. unfold removeHTMLTags. apply replace_all_go_no_tag. lia.
Qed.

(** Probing codes in sequence composes: the codes of [c2] are probed only
    when none of [c1] has a transcript. *)
Theorem FindTranscript_app (tl : TranscriptList) (c1 c2 : list string) :
  FindTranscript tl (c1 ++ c2) =
  match FindTranscript tl c1 with Ok t => Ok t | Err _ => FindTranscript tl c2 end.
Proof.
  induction c1 as [|k c1 IH]; [reflexivity|].
  cbn [app FindTranscript].
  destruct (ManuallyCreatedTranscripts tl !! k); [reflexivity|].
  destruct (GeneratedTranscripts tl !! k); [reflexivity|]. exact IH.
Qed.

Lemma FindTranscript_built_gen vid cj tracks tl codes :
  map_index "captionTracks" cj = Some (JArray tracks) ->
  buildTranscriptList vid cj = Ok tl ->
  FindTranscript tl codes =
  match track_for_codes vid tracks codes with
  | Some t => Ok (track_descriptor vid t)
  | None => Err ErrNoTranscriptFound
  end.
Proof.
  intros Hc Hb. pose proof (build_lookup vid cj tracks tl Hc Hb) as HL.
  induction codes as [|k codes IH]; [reflexivity|].
  cbn [FindTranscript track_for_codes].
  change (ManuallyCreatedTranscripts tl) with (class_map false tl).
  change (GeneratedTranscripts tl) with (class_map true tl).
  rewrite !HL.
  destruct (last_track vid false k tracks); [reflexivity|].
  destruct (last_track vid true k tracks); [reflexivity|]. exact IH.
Qed.

Lemma track_for_codes_some vid tracks codes t :
  track_for_codes vid tracks codes = Some t -> In t tracks /\ In (track_code vid t) codes.
Proof.
  induction codes as [|k codes IH]; cbn [track_for_codes]; [discriminate|].
  destruct (last_track vid false k tracks) as [t1|] eqn:E1.
  { intros H. injection H as <-. apply last_track_some in E1 as (Hin & _ & Hk).
    split; [exact Hin | left; congruence]. }
  destruct (last_track vid true k tracks) as [t2|] eqn:E2.
  { intros H. injection H as <-. apply last_track_some in E2 as (Hin & _ & Hk).
    split; [exact Hin | left; congruence]. }
  intros H. destruct (IH H) as [H1 H2]. split; [exact H1 | right; exact H2].
Qed.

(** Selecting from a freshly built catalog: [FindTranscript] returns the
    descriptor of the last human-authored track with the first code that
    has any track, or else of the last generated one; what it returns
    has one of the requested codes and the catalog's video ID. *)
Theorem FindTranscript_built (vid : string) (cj : list (string * json))
    (tracks : list json) (codes : list string) :
  map_index "captionTracks" cj = Some (JArray tracks) ->
  exists tl, buildTranscriptList vid cj = Ok tl /\
    FindTranscript tl codes =
      match track_for_codes vid tracks codes with
      | Some t => Ok (track_descriptor vid t)
      | None => Err ErrNoTranscriptFound
      end /\
    (forall t, FindTranscript tl codes = Ok t ->
       In (LanguageCode t) codes /\ VideoID t = vid).
Proof.
  intros Hc. pose proof (buildTranscriptList_result vid cj) as R.
  rewrite Hc in R. cbn [as_slice] in R. destruct R as [tl Hb].
  exists tl. split; [exact Hb|].
  pose proof (FindTranscript_built_gen vid cj tracks tl codes Hc Hb) as HF.
  split; [exact HF|].
  intros t Ht. rewrite HF in Ht.
  destruct (track_for_codes vid tracks codes) as [tr|] eqn:E; [|discriminate].
  injection Ht as <-. destruct (track_for_codes_some _ _ _ _ E) as [_ Hk].
  destruct (track_descriptor_fields vid tr) as (F1 & _ & F3).
  rewrite F1, F3. auto.
Qed.

Lemma extractCaptionsJSON_errors html vid e :
  extractCaptionsJSON html vid = Err e ->
  e = ErrTranscriptsUnavailable \/ e = ErrTranscriptsDisabled \/ exists je, e = ErrJSON je.
Proof.
  unfold extractCaptionsJSON. cbv zeta.
  destruct (Nat.leb _ 1); [intros H; injection H as <-; auto|].
  destruct (json_Unmarshal_map _) as [je|res]; [intros H; injection H as <-; eauto|].
  destruct (as_map _); [discriminate | intros H; injection H as <-; auto].
Qed.

Lemma extractCaptionsJSON_unavailable html vid :
  extractCaptionsJSON html vid = Err ErrTranscriptsUnavailable <-> ~ occurs captions_marker html.
Proof.
  destruct (Index html captions_marker) as [i|] eqn:E.
  - destruct (Split_some html captions_marker i captions_marker_nonempty E) as [Hl _].
    split; [|intros H; destruct (H (Index_some_occurs _ _ _ E))].
    unfold extractCaptionsJSON. cbv zeta. rewrite Hl.
    destruct (json_Unmarshal_map _); [discriminate|].
    destruct (as_map _); discriminate.
  - split; [intros _; exact (Index_none _ _ E)|]. intros _.
    unfold extractCaptionsJSON. rewrite (Split_none _ _ E). reflexivity.
Qed.

Lemma buildTranscriptList_error vid cj e : buildTranscriptList vid cj = Err e -> e = ErrInvalidFormat.
Proof.
  pose proof (buildTranscriptList_result vid cj) as R.
  destruct (as_slice (map_index "captionTracks" cj)).
  - destruct R as [tl R]. rewrite R. discriminate.
  - rewrite R. intros H. injection H as <-. reflexivity.
Qed.

Lemma buildTranscriptList_entries vid cj tl :
  buildTranscriptList vid cj = Ok tl ->
  ListVideoID tl = vid /\
  (forall asr k d, class_map asr tl !! k = Some d ->
     VideoID d = vid /\ LanguageCode d = k /\ IsGenerated d = asr).
Proof.
  intros B. pose proof (buildTranscriptList_result vid cj) as R.
  destruct (as_slice (map_index "captionTracks" cj)) as [tracks|] eqn:Es;
    [|rewrite R in B; discriminate].
  apply as_slice_some in Es.
  pose proof (build_lookup vid cj tracks tl Es B) as HL.
  split.
  - rewrite (buildTranscriptList_ok vid cj tracks Es) in B. injection B as <-. reflexivity.
  - intros asr k d Hd. rewrite HL in Hd.
    destruct (last_track vid asr k tracks) as [t|] eqn:Et; [|discriminate].
    injection Hd as <-. apply last_track_some in Et as (_ & Ha & Hk).
    destruct (track_descriptor_fields vid t) as (F1 & F2 & F3).
    rewrite F1, F2, F3. auto.
Qed.

(** [ListTranscripts] requests one URL, the watch page of the video ID,
    and depends on nothing else; a client error is returned as it is; it
    fails with [ErrTranscriptsUnavailable] exactly when the page has no
    [\x22captions\x22:] marker; its own errors are that one,
    [ErrTranscriptsDisabled], [ErrInvalidFormat] and the JSON errors; a
    catalog it returns is for the video ID, every entry stored under its
    own language code and in the mapping of its class. *)
Theorem ListTranscripts_contract {E : Type} (get : string -> E + string) (vid : string) :
  let url := String.append "https://www.youtube.com/watch?v=" vid in
  (forall get' : string -> E + string, get' url = get url ->
     ListTranscripts get' vid = ListTranscripts get vid) /\
  (forall e, get url = inl e -> ListTranscripts get vid = inl e) /\
  (forall html, get url = inr html ->
     ListTranscripts get vid = inr (Err ErrTranscriptsUnavailable) <->
     ~ occurs captions_marker html) /\
  (forall err, ListTranscripts get vid = inr (Err err) ->
     err = ErrTranscriptsUnavailable \/ err = ErrTranscriptsDisabled \/
     err = ErrInvalidFormat \/ exists je, err = ErrJSON je) /\
  (forall tl, ListTranscripts get vid = inr (Ok tl) ->
     ListVideoID tl = vid /\
     (forall k d, ManuallyCreatedTranscripts tl !! k = Some d ->
        VideoID d = vid /\ LanguageCode d = k /\ IsGenerated d = false) /\
     (forall k d, GeneratedTranscripts tl !! k = Some d ->
        VideoID d = vid /\ LanguageCode d = k /\ IsGenerated d = true)).
Proof.
  cbv zeta. unfold ListTranscripts, fetchVideoHTML, watch_url.
  split; [intros get' H; rewrite H; reflexivity|].
  split; [intros e H; rewrite H; reflexivity|].
  split.
  { intros html H. rewrite H. rewrite <- (extractCaptionsJSON_unavailable html vid).
    destruct (extractCaptionsJSON html vid) as [c|e] eqn:Ex.
    - split; [intros Hb; injection Hb as Hb | discriminate].
      apply buildTranscriptList_error in Hb. discriminate.
    - split; intros Hb; injection Hb as ->; reflexivity. }
  split.
  { intros err. destruct (get _) as [e|html]; [discriminate|].
    intros Hr. injection Hr as Hr.
    destruct (extractCaptionsJSON html vid) as [c|e] eqn:Ex.
    - apply buildTranscriptList_error in Hr. auto.
    - injection Hr as <-. destruct (extractCaptionsJSON_errors _ _ _ Ex) as [H | [H | H]]; auto. }
  intros tl. destruct (get _) as [e|html]; [discriminate|].
  intros Hr. injection Hr as Hr.
  destruct (extractCaptionsJSON html vid) as [c|e]; [|discriminate].
  destruct (buildTranscriptList_entries _ _ _ Hr) as [Hv Hc].
  split; [exact Hv|]. split; [exact (Hc false) | exact (Hc true)].
Qed.

(** [Fetch] requests the transcript's own URL and depends on nothing
    else; a client error is returned as it is; its own errors are XML
    errors; the text of every entry it returns has no ['<'] with a ['>']
    after it. *)
Theorem Fetch_contract {E : Type} (get : string -> E + string) (t : Transcript) :
  (forall get' : string -> E + string, get' (URL t) = get (URL t) -> Fetch get' t = Fetch get t) /\
  (forall e, get (URL t) = inl e -> Fetch get t = inl e) /\
  (forall err, Fetch get t = inr (Err err) -> exists xe, err = ErrXML xe) /\
  (forall es, Fetch get t = inr (Ok es) ->
     Forall (fun en => forall i j, i < j ->
       String.get i (Text en) = Some "<"%char -> String.get j (Text en) <> Some ">"%char) es).
Proof.
  unfold Fetch.
  split; [intros get' H; rewrite H; reflexivity|].
  split; [intros e H; rewrite H; reflexivity|].
  destruct (get (URL t)) as [e|body]; [split; intros ? H; discriminate H|].
  unfold parseTranscript. destruct (tokens body) as [ts fin].
  destruct (xml_Unmarshal ts fin) as [xe|entries].
  - split; [intros err H; injection H as <-; eauto | discriminate].
  - split; [discriminate|]. intros es H. injection H as <-.
    apply List.Forall_forall. intros en Hin. apply in_map_iff in Hin as (e0 & <- & _).
    cbn [Text strip_entry]. apply find_tag_none_order.
    unfold removeHTMLTags. apply replace_all_go_no_tag. lia.
Qed.

Lemma runes_ascii s :
  Forall (fun c => nat_of_ascii c < 128) (list_ascii_of_string s) ->
  runes s = map (fun c => String c EmptyString) (list_ascii_of_string s).
Proof.
  induction s as [|c s IH]; intros H; [reflexivity|].
  cbn [list_ascii_of_string] in H. inversion H as [|? ? Hc Hs]; subst.
  rewrite runes_cons by discriminate.
  assert (Hw : rune_width (String c s) = 1).
  { unfold rune_width. cbv zeta. destruct (Nat.ltb_spec (nat_of_ascii c) 128); [reflexivity|lia]. }
  rewrite Hw. cbn [take drop list_ascii_of_string map]. rewrite IH by exact Hs. reflexivity.
Qed.

Lemma space_rune_ascii c : is_space_rune (String c EmptyString) = true -> nat_of_ascii c < 128.
Proof.
  destruct c as [[] [] [] [] [] [] [] []]; vm_compute; intros H; first [discriminate H | lia].
Qed.

Lemma digit_not_space c : is_digit c = true -> is_space_rune (String c EmptyString) = false.
Proof.
  destruct c as [[] [] [] [] [] [] [] []]; vm_compute; intros H; first [discriminate H | reflexivity].
Qed.

Lemma digit_ascii c : is_digit c = true -> nat_of_ascii c < 128.
Proof.
  unfold is_digit. intros H. apply andb_true_iff in H as [_ H]. apply Nat.leb_le in H. lia.
Qed.

Lemma drop_spaces_app_spaces l1 l2 :
  Forall (fun r => is_space_rune r = true) l1 -> drop_spaces (l1 ++ l2) = drop_spaces l2.
Proof. induction 1 as [|r l1 Hr _ IH]; [reflexivity|]. cbn [app drop_spaces]. rewrite Hr. exact IH. Qed.

Lemma drop_spaces_head r l : is_space_rune r = false -> drop_spaces (r :: l) = r :: l.
Proof. intros H. cbn [drop_spaces]. rewrite H. reflexivity. Qed.

Lemma list_ascii_of_string_app a b :
  list_ascii_of_string (String.append a b) = list_ascii_of_string a ++ list_ascii_of_string b.
Proof. induction a as [|c a IH]; [reflexivity|]. rewrite append_cons. cbn [list_ascii_of_string app]. rewrite IH. reflexivity. Qed.

Lemma concat_singletons s :
  concat_str (map (fun c => String c EmptyString) (list_ascii_of_string s)) = s.
Proof. induction s as [|c s IH]; [reflexivity|]. cbn. unfold concat_str in IH. rewrite IH. reflexivity. Qed.

Lemma TrimSpace_padded ws1 ds ws2 :
  ds <> EmptyString ->
  Forall (fun c => is_digit c = true) (list_ascii_of_string ds) ->
  Forall (fun c => is_space_rune (String c EmptyString) = true)
    (list_ascii_of_string ws1 ++ list_ascii_of_string ws2) ->
  TrimSpace (String.append ws1 (String.append ds ws2)) = ds.
Proof.
  intros Hne Hd Hw. apply Forall_app in Hw as [Hw1 Hw2].
  unfold TrimSpace. rewrite runes_ascii.
  2:{ rewrite !list_ascii_of_string_app. apply Forall_app; split; [|apply Forall_app; split].
      - eapply Forall_impl; [exact Hw1|]. intros c. apply space_rune_ascii.
      - eapply Forall_impl; [exact Hd|]. intros c. apply digit_ascii.
      - eapply Forall_impl; [exact Hw2|]. intros c. apply space_rune_ascii. }
  rewrite !list_ascii_of_string_app, !map_app.
  rewrite drop_spaces_app_spaces.
  2:{ apply Forall_map. exact Hw1. }
  destruct ds as [|d r]; [congruence|].
  cbn [list_ascii_of_string] in Hd |- *. inversion Hd as [|? ? Hd0 Hdr]; subst.
  cbn [map app]. rewrite drop_spaces_head by (apply digit_not_space; exact Hd0).
  rewrite app_comm_cons, rev_app_distr, drop_spaces_app_spaces.
  2:{ apply Forall_rev, Forall_map. exact Hw2. }
  cbn [rev].
  destruct (rev (map (fun c => String c EmptyString) (list_ascii_of_string r))) as [|x xs] eqn:Er.
  - cbn [app]. rewrite drop_spaces_head by (apply digit_not_space; exact Hd0).
    apply (f_equal (@rev string)) in Er. rewrite rev_involutive in Er. apply map_eq_nil in Er.
    destruct r; [reflexivity | discriminate].
  - assert (Hx : is_space_rune x = false).
    { assert (Hin : In x (rev (map (fun c => String c EmptyString) (list_ascii_of_string r))))
        by (rewrite Er; left; reflexivity).
      apply in_rev, in_map_iff in Hin as (c & <- & Hc).
      apply digit_not_space. rewrite List.Forall_forall in Hdr. apply Hdr. exact Hc. }
    cbn [app]. rewrite drop_spaces_head by exact Hx.
    rewrite app_comm_cons, <- Er, rev_app_distr, rev_involutive. cbn [rev app].
    cbn [foldr]. fold (concat_str (map (fun c => String c EmptyString) (list_ascii_of_string r))).
    rewrite concat_singletons. reflexivity.
Qed.

Lemma lower_digit c : is_digit c = true -> lower c = c.
Proof.
  unfold is_digit, lower. intros H. apply andb_true_iff in H as [H1 H2].
  apply Nat.leb_le in H1, H2.
  destruct (Nat.leb_spec 65 (nat_of_ascii c)); [|reflexivity].
  destruct (Nat.leb_spec (nat_of_ascii c) 90); [lia|reflexivity].
Qed.

Lemma digit_neq c d : is_digit c = true -> is_digit d = false -> Ascii.eqb c d = false.
Proof.
  intros Hc Hd. destruct (Ascii.eqb_spec c d) as [->|]; [congruence|reflexivity].
Qed.

Lemma mant_loop_digits m dg u ds :
  Forall (fun c => is_digit c = true) (list_ascii_of_string ds) ->
  mant_loop false false m 0%Z dg u ds
  = (digits_value_go m ds, 0%Z, dg || negb (String.eqb ds EmptyString), u, EmptyString).
Proof.
  revert m dg. induction ds as [|c ds IH]; intros m dg H.
  - cbn. rewrite orb_false_r. reflexivity.
  - cbn [list_ascii_of_string] in H. inversion H as [|? ? Hc Hr]; subst.
    cbn [mant_loop]. rewrite !digit_neq by (exact Hc || reflexivity).
    assert (Hv : digit_value false c = Some (Z.of_nat (nat_of_ascii c - 48))).
    { unfold digit_value. unfold is_digit in Hc. rewrite Hc. reflexivity. }
    rewrite Hv, IH by exact Hr. cbn [digits_value_go].
    rewrite orb_true_r. destruct ds; reflexivity.
Qed.

Lemma Qred_inject_Z m : Qred (inject_Z m) = inject_Z m.
Proof.
  unfold Qred, inject_Z.
  pose proof (Z.ggcd_gcd m 1) as Hg. pose proof (Z.ggcd_correct_divisors m 1) as Hd.
  destruct (Z.ggcd m 1) as [g [a b]]. cbn in Hg |- *. rewrite Z.gcd_1_r in Hg. subst g.
  destruct Hd as [Ha Hb]. rewrite Z.mul_1_l in Ha, Hb. subst. reflexivity.
Qed.

Lemma round_pos_int m : (0 < m < 2 ^ 53)%Z -> round_pos m 1 = Some (inject_Z m).
Proof.
  intros Hm. unfold round_pos.
  rewrite Z.log2_1, Z.sub_0_r.
  pose proof (Z.log2_spec m ltac:(lia)) as [Hl _].
  assert (Hk : (Z.log2 m < 53)%Z) by (apply Z.log2_lt_pow2; lia).
  pose proof (Z.log2_nonneg m).
  replace (Z.leb 0 (Z.log2 m)) with true by (symmetry; apply Z.leb_le; lia).
  replace (Z.leb (1 * 2 ^ Z.log2 m) m) with true by (symmetry; apply Z.leb_le; lia).
  cbv zeta.
  replace (Z.max (Z.log2 m - 52) (-1074)) with (Z.log2 m - 52)%Z by lia.
  assert (Hq : forall q, q == inject_Z m -> Qred q = inject_Z m).
  { intros q Hq. rewrite (Qred_complete _ _ Hq). apply Qred_inject_Z. }
  destruct (Z.leb_spec 0 (Z.log2 m - 52)) as [H0|H0].
  - replace (Z.log2 m - 52)%Z with 0%Z by lia. cbn [Z.pow].
    rewrite Z.mul_1_r, Z.div_1_r, Z.mod_1_r.
    replace ((1 * 2 ^ 0 <? 2 * 0)%Z) with false by reflexivity.
    replace ((1 * 2 ^ 0 =? 2 * 0)%Z) with false by reflexivity.
    replace (Z.leb (2 ^ 1024) m) with false.
    2:{ symmetry. apply Z.leb_gt.
        apply (Z.lt_trans _ (2 ^ 53)); [lia|]. apply Z.pow_lt_mono_r; lia. }
    f_equal. apply Hq. unfold Qeq. cbn. lia.
  - set (a := (- (Z.log2 m - 52))%Z).
    assert (Ha : (0 < 2 ^ a)%Z) by (apply Z.pow_pos_nonneg; lia).
    rewrite Z.div_1_r, Z.mod_1_r.
    replace ((1 <? 2 * 0)%Z) with false by reflexivity.
    replace ((1 =? 2 * 0)%Z) with false by reflexivity.
    f_equal. apply Hq. unfold Qeq. cbn [Qnum Qden inject_Z].
    rewrite Z2Pos.id by exact Ha. lia.
Qed.

Lemma digits_value_go_nonneg ds acc : (0 <= acc)%Z -> (0 <= digits_value_go acc ds)%Z.
Proof.
  revert acc. induction ds as [|c ds IH]; intros acc H; [exact H|].
  cbn [digits_value_go]. apply IH. lia.
Qed.

Lemma ParseFloat_digits ds :
  ds <> EmptyString ->
  Forall (fun c => is_digit c = true) (list_ascii_of_string ds) ->
  (digits_value ds < 2 ^ 53)%Z ->
  ParseFloat ds = Some (F64 (inject_Z (digits_value ds))).
Proof.
  intros Hne Hd Hlt.
  destruct ds as [|d r]; [congruence|].
  pose proof Hd as Hd'. cbn [list_ascii_of_string] in Hd'.
  inversion Hd' as [|? ? Hd0 Hdr]; subst.
  unfold ParseFloat, special, read_float.
  rewrite !(digit_neq d) by (exact Hd0 || reflexivity).
  cbn [lower_string]. rewrite (lower_digit d Hd0).
  replace (String.eqb (String d (lower_string r)) "inf") with false
    by (cbn; rewrite (digit_neq d) by (exact Hd0 || reflexivity); reflexivity).
  replace (String.eqb (String d (lower_string r)) "infinity") with false
    by (cbn; rewrite (digit_neq d) by (exact Hd0 || reflexivity); reflexivity).
  replace (String.eqb (String d (lower_string r)) "nan") with false
    by (cbn; rewrite (digit_neq d) by (exact Hd0 || reflexivity); reflexivity).
  cbn [orb andb negb].
  assert (Hhex : match r with
                 | String x (String _ _) => Ascii.eqb d "0"%char && Ascii.eqb (lower x) "x"%char
                 | _ => false end = false).
  { destruct r as [|x [|y r']]; try reflexivity.
    inversion Hdr as [|? ? Hx _]; subst.
    rewrite (lower_digit x Hx), (digit_neq x) by (exact Hx || reflexivity).
    apply andb_false_r. }
  rewrite Hhex. rewrite mant_loop_digits by exact Hd.
  cbn [orb negb String.eqb].
  unfold round_float64.
  destruct (Z.eqb_spec (digits_value_go 0 (String d r)) 0) as [H0|H0].
  - fold (digits_value (String d r)). unfold digits_value in *. rewrite H0. reflexivity.
  - cbn [Z.leb Z.compare Z.sub Z.mul Z.pow].
    rewrite Z.mul_1_r, round_pos_int. 1: reflexivity.
    split; [|exact Hlt].
    pose proof (digits_value_go_nonneg (String d r) 0 ltac:(lia)).
    unfold digits_value in *. lia.
Qed.

(** [copyValue] into a [float64] field: a whole number of at most 53
    bits written in decimal digits, with ASCII white space around it,
    is decoded exactly. *)
Theorem copy_float_padded_integer (ws1 ds ws2 : string) :
  ds <> EmptyString ->
  Forall (fun c => is_digit c = true) (list_ascii_of_string ds) ->
  Forall (fun c => is_space_rune (String c EmptyString) = true)
    (list_ascii_of_string ws1 ++ list_ascii_of_string ws2) ->
  (digits_value ds < 2 ^ 53)%Z ->
  copy_float (String.append ws1 (String.append ds ws2)) = inr (F64 (inject_Z (digits_value ds))).
Proof.
  intros Hne Hd Hw Hlt. unfold copy_float.
  replace (String.eqb (String.append ws1 (String.append ds ws2)) EmptyString) with false.
  2:{ symmetry. apply String.eqb_neq. intros He.
      apply (f_equal String.length) in He. rewrite !str_length_append in He.
      destruct ds; [congruence|]. cbn in He. lia. }
  rewrite TrimSpace_padded, ParseFloat_digits by assumption. reflexivity.
Qed.

Lemma copy_float_padded_integer_witness :
  copy_float (" 12" ++ String (ascii_of_nat 9) EmptyString) = inr (F64 (inject_Z 12)).
Proof.
  exact (copy_float_padded_integer " " "12" (String (ascii_of_nat 9) EmptyString)
           ltac:(discriminate) ltac:(repeat constructor) ltac:(vm_compute; repeat constructor)
           ltac:(vm_compute; reflexivity)).
Defined.

Lemma ExtractVideoID_idempotent_witness :
  ExtractVideoID "https://youtu.be/dQw4w9WgXcQ?t=42" = Ok "dQw4w9WgXcQ" /\
  ExtractVideoID "dQw4w9WgXcQ" = Ok "dQw4w9WgXcQ".
Proof.
  assert (H : ExtractVideoID "https://youtu.be/dQw4w9WgXcQ?t=42" = Ok "dQw4w9WgXcQ")
    by (vm_compute; reflexivity).
  split; [exact H | exact (ExtractVideoID_idempotent _ _ H)].
Defined.

Lemma ExtractVideoID_result_shape_witness :
  ExtractVideoID "https://www.youtube.com/embed/dQw4w9WgXcQ" = Ok "dQw4w9WgXcQ" /\
  ("dQw4w9WgXcQ" = "https://www.youtube.com/embed/dQw4w9WgXcQ" \/
   (occurs "dQw4w9WgXcQ" "https://www.youtube.com/embed/dQw4w9WgXcQ" /\
    List.length (runes "dQw4w9WgXcQ") = 11 /\
    Forall (fun r => VideoRegexp.id_class r = true) (runes "dQw4w9WgXcQ"))).
Proof.
  assert (H : ExtractVideoID "https://www.youtube.com/embed/dQw4w9WgXcQ" = Ok "dQw4w9WgXcQ")
    by (vm_compute; reflexivity).
  split; [exact H | exact (ExtractVideoID_result_shape _ _ H)].
Defined.

Lemma removeHTMLTags_equations_witness :
  ~ has_char "ab" "<"%char /\ ~ has_char "i" ">"%char /\
  removeHTMLTags (String.append "ab" "<i>c") = String.append "ab" (removeHTMLTags "<i>c") /\
  removeHTMLTags (String "<"%char (String.append "i" (String ">"%char "c"))) = removeHTMLTags "c" /\
  removeHTMLTags (String "<"%char "i") = String "<"%char "i".
Proof.
  assert (Ha : ~ has_char "ab" "<"%char).
  { intros [i Hi]. do 2 (destruct i as [|i]; [discriminate|]). discriminate. }
  assert (Hm : ~ has_char "i" ">"%char).
  { intros [i Hi]. destruct i as [|i]; discriminate. }
  destruct removeHTMLTags_equations as (_ & H1 & H2 & H3).
  split; [exact Ha|]. split; [exact Hm|].
  split; [exact (H1 _ _ Ha)|]. split; [exact (H2 _ _ Hm) | exact (H3 _ Hm)].
Defined.

Lemma removeHTMLTags_no_tag_witness :
  1 < 2 /\ String.get 1 (removeHTMLTags "a<b") = Some "<"%char /\
  String.get 2 (removeHTMLTags "a<b") <> Some ">"%char.
Proof.
  assert (H : String.get 1 (removeHTMLTags "a<b") = Some "<"%char) by (vm_compute; reflexivity).
  split; [lia|]. split; [exact H|]. exact (removeHTMLTags_no_tag "a<b" 1 2 ltac:(lia) H).
Defined.

Lemma FindTranscript_built_witness :
  map_index "captionTracks" scenario_B_captions = Some (JArray [scenario_B_track]) /\
  exists tl, buildTranscriptList "vid" scenario_B_captions = Ok tl /\
    FindTranscript tl ["fr"; "en"] =
      match track_for_codes "vid" [scenario_B_track] ["fr"; "en"] with
      | Some t => Ok (track_descriptor "vid" t)
      | None => Err ErrNoTranscriptFound
      end /\
    (forall t, FindTranscript tl ["fr"; "en"] = Ok t ->
       In (LanguageCode t) ["fr"; "en"] /\ VideoID t = "vid").
Proof.
  assert (H : map_index "captionTracks" scenario_B_captions = Some (JArray [scenario_B_track]))
    by (vm_compute; reflexivity).
  split; [exact H | exact (FindTranscript_built "vid" _ _ ["fr"; "en"] H)].
Defined.

Lemma ListTranscripts_contract_witness :
  (exists tl,
     ListTranscripts (fun _ : string => @inr unit string sample_watch_page) "vid" = inr (Ok tl) /\
     ListVideoID tl = "vid" /\
     (exists d, GeneratedTranscripts tl !! "en" = Some d /\
        VideoID d = "vid" /\ LanguageCode d = "en" /\ IsGenerated d = true)) /\
  (ListTranscripts (fun _ : string => @inr unit string "<html></html>") "vid"
     = inr (Err ErrTranscriptsUnavailable) /\
   ~ occurs captions_marker "<html></html>") /\
  ListTranscripts (fun _ : string => @inl unit string tt) "vid" = inl tt.
Proof.
  split; [|split].
  - destruct (ListTranscripts_contract (fun _ : string => @inr unit string sample_watch_page) "vid")
      as (_ & _ & _ & _ & Hok).
    eexists. assert (H : ListTranscripts (fun _ : string => @inr unit string sample_watch_page) "vid"
                         = inr (Ok _)) by (vm_compute; reflexivity).
    destruct (Hok _ H) as (Hv & _ & Hg).
    split; [exact H|]. split; [exact Hv|].
    eexists. split; [vm_compute; reflexivity|]. apply Hg. vm_compute. reflexivity.
  - destruct (ListTranscripts_contract (fun _ : string => @inr unit string "<html></html>") "vid")
      as (_ & _ & Hu & _ & _).
    assert (H : ListTranscripts (fun _ : string => @inr unit string "<html></html>") "vid"
                = inr (Err ErrTranscriptsUnavailable)) by (vm_compute; reflexivity).
    split; [exact H|]. exact (proj1 (Hu "<html></html>" eq_refl) H).
  - exact (proj1 (proj2 (ListTranscripts_contract (fun _ : string => @inl unit string tt) "vid"))
             tt eq_refl).
Defined.

Lemma Fetch_contract_witness :
  exists es,
    Fetch (fun _ : string => @inr unit string sample_transcript) sample_track = inr (Ok es) /\
    es <> [] /\
    Forall (fun en => forall i j, i < j ->
      String.get i (Text en) = Some "<"%char -> String.get j (Text en) <> Some ">"%char) es.
Proof.
  eexists. assert (H : Fetch (fun _ : string => @inr unit string sample_transcript) sample_track
                       = inr (Ok _)) by (vm_compute; reflexivity).
  split; [exact H|]. split; [discriminate|].
  exact (proj2 (proj2 (proj2 (Fetch_contract (fun _ : string => @inr unit string sample_transcript)
           sample_track))) _ H).
Defined.
